(** * The quiz command handlers of [cmds.js]

    A shallow embedding of the command handlers ([validateId], [showCmd],
    [addCmd], [deleteCmd], [editCmd], [testCmd], [playCmd], ...) and of the
    JavaScript built-ins they call, followed by the properties the
    specification states about them. *)

From Stdlib Require Import List String Ascii ZArith NArith Arith Lia Bool.
From Stdlib Require Import Permutation.
From Stdlib Require Import DecimalString DecimalZ DecimalPos DecimalFacts.
From Equations Require Import Equations.
Import ListNotations.

Local Open Scope string_scope.

(** ** JavaScript strings and numbers

    A string is a sequence of code units; the model covers the code units
    below 256 (Latin-1), one [ascii] each.  Numbers that hold integers are
    taken as mathematical integers.  A Number is a double: it holds every
    integer of magnitude at most 2^53 exactly, rounds the larger ones and
    is [Infinity] past its range, which the integers here do not follow;
    the statements that depend on the value of a parsed number are made
    for the integers that a Number holds exactly ([exact_as_number]
    below). *)

Module Js.

Definition code (c : ascii) : N := N_of_ascii c.

(** WhiteSpace and LineTerminator code units below 256: TAB, LF, VT, FF,
    CR, SP and NBSP. *)
Definition is_space (c : ascii) : bool :=
  match code c with
  | 9 | 10 | 11 | 12 | 13 | 32 | 160 => true
  | _ => false
  end%N.

Fixpoint trimStart (s : string) : string :=
  match s with
  | String c s' => if is_space c then trimStart s' else s
  | EmptyString => EmptyString
  end.

Fixpoint trimEnd (s : string) : string :=
  match s with
  | EmptyString => EmptyString
  | String c s' =>
      match trimEnd s' with
      | EmptyString => if is_space c then EmptyString else String c EmptyString
      | t => String c t
      end
  end.

(** [String.prototype.trim] *)
Definition trim (s : string) : string := trimEnd (trimStart s).

(** Lower-case mapping of one code unit: A-Z, and the Latin-1 capitals
    U+00C0..U+00DE except the multiplication sign U+00D7. *)
Definition lower_char (c : ascii) : ascii :=
  let n := code c in
  if ((65 <=? n) && (n <=? 90)
      || (192 <=? n) && (n <=? 222) && negb (n =? 215))%N
  then ascii_of_N (n + 32) else c.

(** [String.prototype.toLowerCase] *)
Fixpoint toLowerCase (s : string) : string :=
  match s with
  | EmptyString => EmptyString
  | String c s' => String (lower_char c) (toLowerCase s')
  end.

(** The value of a digit in the given radix (10 or 16), if it is one. *)
Definition digit_value (radix : Z) (c : ascii) : option Z :=
  let n := Z.of_N (code c) in
  let v := (if (48 <=? n) && (n <=? 57) then Some (n - 48)
            else if (97 <=? n) && (n <=? 102) then Some (n - 87)
            else if (65 <=? n) && (n <=? 70) then Some (n - 55)
            else None)%Z in
  match v with
  | Some d => if (d <? radix)%Z then Some d else None
  | None => None
  end.

(** The longest prefix of digits, read most significant digit first.
    [acc] is [None] as long as no digit was read. *)
Fixpoint digits (radix : Z) (s : string) (acc : option Z) : option Z :=
  match s with
  | String c s' =>
      match digit_value radix c with
      | Some d =>
          digits radix s'
            (Some (radix * match acc with Some a => a | None => 0 end + d)%Z)
      | None => acc
      end
  | EmptyString => acc
  end.

(** [parseInt(string)] without a radix: leading white space is skipped, a
    sign is read, a [0x] or [0X] prefix selects radix 16, and the longest
    prefix of digits gives the value.  [None] is [NaN].  The value is the
    integer that the digits denote; it is the Number that [parseInt]
    returns when its magnitude is at most 2^53, and the double nearest to
    it, or [Infinity], otherwise. *)
Definition parseInt (s : string) : option Z :=
  let s1 := trimStart s in
  let '(sign, s2) :=
    match s1 with
    | String "-" r => ((-1)%Z, r)
    | String "+" r => (1%Z, r)
    | _ => (1%Z, s1)
    end in
  let '(radix, s3) :=
    match s2 with
    | String "0" (String "x" r) => (16%Z, r)
    | String "0" (String "X" r) => (16%Z, r)
    | _ => (10%Z, s2)
    end in
  option_map (Z.mul sign) (digits radix s3 None).

(** [`${n}`] for an integer [n]: its decimal numeral. *)
Definition show (n : Z) : string := NilZero.string_of_int (Z.to_int n).

(** [array.splice(i, 1)]: the element at position [i] is removed; nothing
    is removed when [i] is past the end. *)
Definition splice1 {A} (i : nat) (l : list A) : list A :=
  firstn i l ++ skipn (S i) l.

(** A value of [Math.random()]: a number in [0, 1), taken as the rational
    [num / den]. *)
Record unit_interval : Type := mk_random {
  num : nat;
  den : nat;
  below_one : num < den
}.

(** [Math.floor(r * n)], the product taken exactly; the rounding of the
    double product can change the position picked for a given [r], not
    the range of the positions. *)
Definition floor_mul (r : unit_interval) (n : nat) : nat :=
  (num r * n) / den r.

End Js.

(** Code units above 127 that occur in the messages of [cmds.js]. *)
Module Latin1.
Definition a' : string := String (ascii_of_nat 225) "".
Definition e' : string := String (ascii_of_nat 233) "".
Definition o' : string := String (ascii_of_nat 243) "".
Definition n' : string := String (ascii_of_nat 241) "".
End Latin1.

(** ** Errors, records and channel events *)

(** [Error] objects with their [message]; a [Sequelize.ValidationError]
    also carries [errors], of which the handlers read the [message]s. *)
Inductive error : Type :=
| Error (message : string)
| ValidationError (message : string) (errors : list string).

Definition message (e : error) : string :=
  match e with
  | Error m => m
  | ValidationError m _ => m
  end.

(** A row of the quiz table. *)
Module Quiz.
Record quiz : Type := mk_quiz {
  id : Z;
  question : string;
  answer : string
}.
End Quiz.
Import Quiz.

(** What a handler does on the session's socket and readline interface, in
    the order it does it. *)
Inductive event : Type :=
| Log (msg : string) (color : option string)   (* log(socket, msg, color) *)
| BigLog (msg : string) (color : string)       (* biglog(socket, msg, color) *)
| ErrorLog (emsg : string)                     (* errorlog(socket, emsg) *)
| Question (query : string)                    (* rl.question(query, ...) *)
| Line (line : string)                         (* a line is handed to the question's callback *)
| Prompt                                       (* rl.prompt() *)
| RlClose                                      (* rl.close() *)
| SocketEnd.                                   (* socket.end() *)

(** ** Promise chains

    A handler is a tree of the operations it performs.  [Ask query k] is a
    question whose promise the chain waits for: [k] runs on the answer.
    [AskDropped query cb k] is a question whose promise is dropped by the
    code that asked: the callback [cb] stays registered with readline while
    the chain goes on with [k] at once.  [Random] is a call of
    [Math.random()], [Get] and [Put] read and write the quiz table. *)
Inductive proc (A : Type) : Type :=
| Ret (a : A)
| Throw (e : error)
| Emit (ev : event) (k : proc A)
| Ask (query : string) (k : string -> proc A)
| AskDropped (query : string) (cb : string -> proc unit) (k : proc A)
| Random (k : Js.unit_interval -> proc A)
| Get (k : list quiz -> proc A)
| Put (rows : list quiz) (k : proc A).

Arguments Ret {A} a.
Arguments Throw {A} e.
Arguments Emit {A} ev k.
Arguments Ask {A} query k.
Arguments AskDropped {A} query cb k.
Arguments Random {A} k.
Arguments Get {A} k.
Arguments Put {A} rows k.

(** [p.then(f)] *)
Fixpoint then_ {A B} (p : proc A) (f : A -> proc B) : proc B :=
  match p with
  | Ret a => f a
  | Throw e => Throw e
  | Emit ev k => Emit ev (then_ k f)
  | Ask q k => Ask q (fun l => then_ (k l) f)
  | AskDropped q cb k => AskDropped q cb (then_ k f)
  | Random k => Random (fun r => then_ (k r) f)
  | Get k => Get (fun rows => then_ (k rows) f)
  | Put rows k => Put rows (then_ k f)
  end.

(** [p.catch(h)], and [p.catch(Sequelize.ValidationError, h)] when [only]
    selects the validation errors. *)
Fixpoint catch_when {A} (only : error -> bool) (p : proc A)
    (h : error -> proc A) : proc A :=
  match p with
  | Ret a => Ret a
  | Throw e => if only e then h e else Throw e
  | Emit ev k => Emit ev (catch_when only k h)
  | Ask q k => Ask q (fun l => catch_when only (k l) h)
  | AskDropped q cb k => AskDropped q cb (catch_when only k h)
  | Random k => Random (fun r => catch_when only (k r) h)
  | Get k => Get (fun rows => catch_when only (k rows) h)
  | Put rows k => Put rows (catch_when only k h)
  end.

Definition isValidationError (e : error) : bool :=
  match e with
  | ValidationError _ _ => true
  | Error _ => false
  end.

Definition catch_ {A} := @catch_when A (fun _ => true).
Definition catch_ValidationError {A} := @catch_when A isValidationError.

(** A call [f();] as a statement: the callee runs until it first waits for
    a line, and the caller goes on from there; a promise the callee returns
    is dropped.  An exception thrown before that reaches the caller. *)
Fixpoint dropped (callee : proc unit) : proc unit :=
  match callee with
  | Ret _ => Ret tt
  | Throw e => Throw e
  | Emit ev k => Emit ev (dropped k)
  | Ask q k => AskDropped q k (Ret tt)
  | AskDropped q cb k => AskDropped q cb (dropped k)
  | Random k => Random (fun r => dropped (k r))
  | Get k => Get (fun rows => dropped (k rows))
  | Put rows k => Put rows (dropped k)
  end.

Declare Scope proc_scope.
Delimit Scope proc_scope with proc.
Bind Scope proc_scope with proc.
Notation "p >>= f" := (then_ p f)
  (at level 58, left associativity) : proc_scope.
Notation "p >>! h" := (catch_ p h)
  (at level 58, left associativity) : proc_scope.
Notation "p >>!! h" := (catch_ValidationError p h)
  (at level 58, left associativity) : proc_scope.
Notation "p ;; q" := (then_ p (fun _ => q))
  (at level 59, right associativity) : proc_scope.

Local Open Scope proc_scope.

(** [array.forEach(f)] *)
Fixpoint forEach {A} (l : list A) (f : A -> proc unit) : proc unit :=
  match l with
  | [] => Ret tt
  | x :: l' => f x ;; forEach l' f
  end.

(** ** Running a handler

    The world of one session: the quiz table, the lines that readline will
    hand to the question callbacks, in order, and the values
    [Math.random()] will return. *)
Record world : Type := mk_world {
  rows : list quiz;
  input : list string;
  random : nat -> Js.unit_interval
}.

Definition with_rows (w : world) (r : list quiz) : world :=
  mk_world r (input w) (random w).
Definition with_input (w : world) (ls : list string) : world :=
  mk_world (rows w) ls (random w).
Definition next_random (w : world) : world :=
  mk_world (rows w) (input w) (fun n => random w (S n)).

(** How a run ends: the chain is settled, or a question waits for a line
    the user has not typed, or a question was asked while another one was
    still pending, which the model does not follow any further. *)
Inductive outcome (A : Type) : Type :=
| Fulfilled (a : A)
| Rejected (e : error)
| Waiting
| Clash.

Arguments Fulfilled {A} a.
Arguments Rejected {A} e.
Arguments Waiting {A}.
Arguments Clash {A}.

(** [busy] tells that a question callback is registered.  A dropped
    question lets its chain run to the end, then takes the next line: the
    callbacks of a settled promise run before readline hands over a
    line. *)
Fixpoint run {A} (p : proc A) (busy : bool) (w : world)
  : list event * world * outcome A :=
  match p with
  | Ret a => ([], w, Fulfilled a)
  | Throw e => ([], w, Rejected e)
  | Emit ev k =>
      let '(t, w', o) := run k busy w in (ev :: t, w', o)
  | Ask q k =>
      if busy then ([], w, Clash) else
      match input w with
      | [] => ([Question q], w, Waiting)
      | l :: ls =>
          let '(t, w', o) := run (k l) false (with_input w ls) in
          (Question q :: Line l :: t, w', o)
      end
  | AskDropped q cb k =>
      if busy then ([], w, Clash) else
      let '(t1, w1, o1) := run k true w in
      match o1 with
      | Fulfilled _ | Rejected _ =>
          match input w1 with
          | [] => (Question q :: t1, w1, Waiting)
          | l :: ls =>
              let '(t2, w2, o2) := run (cb l) false (with_input w1 ls) in
              (Question q :: t1 ++ Line l :: t2, w2,
               match o2 with
               | Fulfilled _ => o1
               | Rejected e => Rejected e
               | Waiting => Waiting
               | Clash => Clash
               end)
          end
      | _ => (Question q :: t1, w1, o1)
      end
  | Random k => run (k (random w 0)) busy (next_random w)
  | Get k => run (k (rows w)) busy w
  | Put r k => run k busy (with_rows w r)
  end.

Definition exec {A} (p : proc A) (w : world) := run p false w.
Definition trace {A} (p : proc A) (w : world) : list event :=
  fst (fst (exec p w)).
Definition final_rows {A} (p : proc A) (w : world) : list quiz :=
  rows (snd (fst (exec p w))).
Definition result {A} (p : proc A) (w : world) : outcome A :=
  snd (exec p w).

(** ** The modules [./out] and [./model]

    Neither module is among the sources.  [log], [biglog] and [errorlog]
    write on the socket they are given, which the events above record;
    [colorize] is left open, and so is what [errorlog] does when it is
    called with a string where the socket belongs: it may throw
    ([Some e]) or return ([None]), and it has no socket to write on. *)
Class Out : Type := {
  colorize : string -> string -> string;
  errorlog_stray : string -> option error
}.

(** The validation rules of the quiz model are left open: for the table,
    the id of the row being saved (none for a new row) and the two texts
    they give the message of the [ValidationError] and its field messages,
    or [None] when the write is accepted. *)
Class Model : Type := {
  validate : list quiz -> option Z -> string -> string
             -> option (string * list string)
}.

Section Handlers.

Context {out : Out} {model : Model}.

(** Modelled from the spec: [log(socket, msg, color)] of [./out], the
    [emitLine] of the Channel interface. *)
Definition log (msg : string) (color : option string) : proc unit :=
  Emit (Log msg color) (Ret tt).

(** Modelled from the spec: [biglog(socket, msg, color)] of [./out], the
    [emitBanner] of the Channel interface. *)
Definition biglog (msg color : string) : proc unit :=
  Emit (BigLog msg color) (Ret tt).

(** Modelled from the spec: [errorlog(socket, emsg)] of [./out], which
    renders an error line on the channel. *)
Definition errorlog (emsg : string) : proc unit :=
  Emit (ErrorLog emsg) (Ret tt).

(** [errorlog(message)]: the message stands where the socket belongs. *)
Definition errorlog_no_socket (message : string) : proc unit :=
  match errorlog_stray message with
  | Some e => Throw e
  | None => Ret tt
  end.

Definition rl_prompt : proc unit := Emit Prompt (Ret tt).

(** The Quiz Store is [models.quiz], whose definition is not among the
    sources; its operations follow the Store interface of the
    specification. *)
Definition has_id (i : Z) (q : quiz) : bool := (id q =? i)%Z.

(** Modelled from the spec: [findById] of the Quiz Store; the row of that
    id, or none. *)
Definition findById (i : Z) : proc (option quiz) :=
  Get (fun rows => Ret (find (has_id i) rows)).

(** Modelled from the spec: [findAll] of the Quiz Store; the rows in the
    order of the table. *)
Definition findAll : proc (list quiz) :=
  Get (fun rows => Ret rows).

(** Modelled from the spec: ids are assigned by the store and unique; a
    new row gets an id above all those in the table. *)
Definition fresh_id (rows : list quiz) : Z :=
  (1 + fold_right Z.max 0 (map id rows))%Z.

(** Modelled from the spec: [create] of the Quiz Store; it rejects the
    write with a validation error or adds the row and returns it. *)
Definition create (q a : string) : proc quiz :=
  Get (fun rows =>
    match validate rows None q a with
    | Some (m, errors) => Throw (ValidationError m errors)
    | None =>
        let row := mk_quiz (fresh_id rows) q a in
        Put (rows ++ [row]) (Ret row)
    end).

(** Modelled from the spec: [update] of the Quiz Store ([quiz.save()]); it
    rejects the write with a validation error or replaces the row of that
    id. *)
Definition save (row : quiz) : proc quiz :=
  Get (fun rows =>
    match validate rows (Some (id row)) (question row) (answer row) with
    | Some (m, errors) => Throw (ValidationError m errors)
    | None =>
        Put (map (fun r => if has_id (id row) r then row else r) rows)
            (Ret row)
    end).

(** Modelled from the spec: [delete] of the Quiz Store
    ([destroy({where: {id}})]); the rows of that id are removed. *)
Definition destroy (i : Z) : proc unit :=
  Get (fun rows => Put (filter (fun r => negb (has_id i r)) rows) (Ret tt)).

Import Latin1.

(** The texts of the add and credits lines are written in the source with
    combining marks ([n] and U+0303, [e] and U+0301), code units above
    those of the model: the precomposed letters stand for them here. *)
Definition helpCmd : proc unit :=
  log "Comandos:" None ;;
  log "  h|help - Muestra esta ayuda." None ;;
  log "  list - Listar los quizzes existentes." None ;;
  log "  show <id> - Muestra la pregunta y la respuesta el quiz indicado." None ;;
  log ("  add - A" ++ n' ++ "adir un nuevo quiz interactivamente.") None ;;
  log "  delete <id> - Borrar el quiz indicado." None ;;
  log "  edit <id> - Editar el quiz indicado." None ;;
  log "  test <id> - Probar el quiz indicado." None ;;
  log "  p|play - Jugar a preguntar aleatoriamente todos los quizzes." None ;;
  log ("  credits - Cr" ++ e' ++ "ditos.") None ;;
  log "  q|quit - Salir del programa." None ;;
  rl_prompt.

Definition listCmd : proc unit :=
  findAll
  >>= (fun quizzes =>
         forEach quizzes (fun quiz =>
           log (" [" ++ colorize (Js.show (id quiz)) "magenta" ++ "]: "
                ++ question quiz) None))
  >>! (fun error => errorlog (message error))
  >>= (fun _ => rl_prompt).

Definition missing_id : string := "Falta el par" ++ a' ++ "metro <id>.".
Definition invalid_id : string :=
  "El valor del par" ++ a' ++ "metro <id> no es v" ++ a' ++ "lido.".

Definition validateId (id : option string) : proc Z :=
  match id with
  | None => Throw (Error missing_id)
  | Some id =>
      match Js.parseInt id with
      | None => Throw (Error invalid_id)
      | Some id => Ret id
      end
  end.

(** [`${id}`] for the handler's raw argument. *)
Definition show_arg (id : option string) : string :=
  match id with
  | Some s => s
  | None => "undefined"
  end.

Definition not_found (id : option string) : string :=
  "No existe un quiz asociado al id=" ++ show_arg id ++ ".".

Definition showCmd (id : option string) : proc unit :=
  validateId id
  >>= (fun id => findById id)
  >>= (fun quiz =>
         match quiz with
         | None => Throw (Error (not_found id))
         | Some quiz =>
             log (" [" ++ colorize (Js.show (Quiz.id quiz)) "magenta"
                  ++ "]:  " ++ question quiz ++ " "
                  ++ colorize "=>" "magenta" ++ " " ++ answer quiz) None
         end)
  >>! (fun error => errorlog (message error))
  >>= (fun _ => rl_prompt).

Definition makeQuestion (text : string) : proc string :=
  Ask (colorize text "red") (fun answer => Ret (Js.trim answer)).

Definition quiz_erroneo : string := "El quiz es erroneo:".

Definition addCmd : proc unit :=
  makeQuestion " Introduzca una pregunta: "
  >>= (fun q =>
         makeQuestion " Introduzca la respuesta "
         >>= (fun a => Ret (q, a)))
  >>= (fun quiz => create (fst quiz) (snd quiz))
  >>= (fun quiz =>
         log (" [" ++ colorize ("Se ha a" ++ n' ++ "adido") "magenta"
              ++ "]:  " ++ question quiz ++ " "
              ++ colorize "=>" "magenta" ++ " " ++ answer quiz) None)
  >>!! (fun error =>
          errorlog quiz_erroneo ;;
          match error with
          | ValidationError _ errors => forEach errors errorlog_no_socket
          | Error _ => Ret tt
          end)
  >>! (fun error => errorlog (message error))
  >>= (fun _ => rl_prompt).

Definition deleteCmd (id : option string) : proc unit :=
  validateId id
  >>= (fun id => destroy id)
  >>! (fun error => errorlog (message error))
  >>= (fun _ => rl_prompt).

(** The two [rl.write] calls that pre-seed the input buffer when the
    standard output is a terminal are left out: they add no event of their
    own, and the lines of the world are the lines the callbacks receive. *)
Definition editCmd (id : option string) : proc unit :=
  validateId id
  >>= (fun id => findById id)
  >>= (fun quiz =>
         match quiz with
         | None => Throw (Error (not_found id))
         | Some quiz =>
             makeQuestion " Introduzca la pregunta "
             >>= (fun q =>
                    makeQuestion " Introduzca la respuesta "
                    >>= (fun a =>
                           let quiz := mk_quiz (Quiz.id quiz) q (answer quiz) in
                           let quiz := mk_quiz (Quiz.id quiz) a (answer quiz) in
                           Ret quiz))
         end)
  >>= (fun quiz => save quiz)
  >>= (fun quiz =>
         log (" Se ha cambiado el quiz "
              ++ colorize (Js.show (Quiz.id quiz)) "magenta" ++ " por:  "
              ++ question quiz ++ " " ++ colorize "=>" "magenta" ++ " "
              ++ answer quiz) None)
  >>!! (fun error =>
          errorlog quiz_erroneo ;;
          match error with
          | ValidationError _ errors => forEach errors errorlog_no_socket
          | Error _ => Ret tt
          end)
  >>! (fun error => errorlog (message error))
  >>= (fun _ => rl_prompt).

(** The comparison of [testCmd] and [playOne]:
    [a.trim().toLowerCase() === quiz.answer.toLowerCase()]. *)
Definition matches (a : string) (quiz : quiz) : bool :=
  Js.toLowerCase (Js.trim a) =? Js.toLowerCase (answer quiz).

Definition testCmd (id : option string) : proc unit :=
  validateId id
  >>= (fun id => findById id)
  >>= (fun quiz =>
         match quiz with
         | None => Throw (Error (not_found id))
         | Some quiz =>
             makeQuestion (question quiz ++ "? ")
             >>= (fun a =>
                    (if matches a quiz
                     then log "Su respuesta es correcta." None ;;
                          biglog "Correcta" "green"
                     else log "Su respuesta es incorrecta." None ;;
                          biglog "Incorrecta" "red") ;;
                    rl_prompt)
         end)
  >>!! (fun error =>
          errorlog quiz_erroneo ;;
          match error with
          | ValidationError _ errors => forEach errors errorlog
          | Error _ => Ret tt
          end)
  >>! (fun error => errorlog (message error))
  >>= (fun _ => rl_prompt).

Definition fin_del_juego (score : nat) : string :=
  " Fin del juego. Aciertos: " ++ Js.show (Z.of_nat score).

(** The message of the [TypeError] that reading [quiz.question] raises when
    [quiz] is [undefined]. *)
Definition question_of_undefined : string :=
  "Cannot read property 'question' of undefined".

(** [playOne] of [playCmd], with the variables it closes over as
    arguments.  The [try] block covers the selection and the call of
    [makeQuestion]; the callback of the answer runs outside it. *)
Equations? playOne (preg_resp : list quiz) (toBeResolved : list nat)
    (score : nat) : proc unit by wf (List.length toBeResolved) lt :=
playOne preg_resp [] score :=
  log (" No hay nada m" ++ a' ++ "s que preguntar") None ;;
  log (fin_del_juego score) None ;;
  biglog (Js.show (Z.of_nat score)) "magenta" ;;
  rl_prompt;
playOne preg_resp (i :: pool) score :=
  Random (fun r =>
    let id := Js.floor_mul r (List.length (i :: pool)) in
    match option_map (nth_error preg_resp) (nth_error (i :: pool) id) with
    | Some (Some quiz) =>
        makeQuestion (question quiz ++ "? ")
        >>= (fun respuesta =>
               if matches respuesta quiz
               then log (" CORRECTO - Lleva " ++ Js.show (Z.of_nat (score + 1))
                         ++ " aciertos.") None ;;
                    dropped (playOne preg_resp (Js.splice1 id (i :: pool))
                               (score + 1))
               else log " INCORRECTO" None ;;
                    log (fin_del_juego score) None ;;
                    biglog (Js.show (Z.of_nat score)) "magenta" ;;
                    rl_prompt)
    | _ => errorlog question_of_undefined ;; rl_prompt
    end).
Proof.
  subst id0; unfold Js.splice1, Js.floor_mul.
  destruct r as [n d Hlt]; cbn [Js.num Js.den].
  change (S (List.length pool)) with (List.length (i :: pool)).
  set (l := i :: pool).
  assert (Hpos : 0 < List.length l) by (subst l; simpl; lia).
  assert (Hid : n * List.length l / d < List.length l).
  { apply Nat.Div0.div_lt_upper_bound.
    apply Nat.mul_lt_mono_pos_r; assumption. }
  rewrite length_app, length_firstn, length_skipn. lia.
Defined.

Definition quiz_erroneo' : string := "El quiz es err" ++ o' ++ "neo:".

Definition playCmd : proc unit :=
  findAll
  >>= (fun preg_resp =>
         let toBeResolved := seq 0 (List.length preg_resp) in
         dropped (playOne preg_resp toBeResolved 0))
  >>!! (fun error =>
          errorlog quiz_erroneo' ;;
          match error with
          | ValidationError _ errors => forEach errors errorlog_no_socket
          | Error _ => Ret tt
          end)
  >>! (fun error => errorlog (message error))
  >>= (fun _ => rl_prompt).

Definition creditsCmd : proc unit :=
  log ("Autores de la pr" ++ a' ++ "ctica:") None ;;
  log "Andres Delgado Gomez" (Some "green") ;;
  rl_prompt.

Definition quitCmd : proc unit :=
  Emit RlClose (Emit SocketEnd (Ret tt)).

End Handlers.

(** ** A concrete environment

    [colorize] without colours, an [errorlog] that fails on a string the
    way [socket.write] does, and the validation rules the specification
    names. *)
Definition plain_out : Out := {|
  colorize := fun msg _ => msg;
  errorlog_stray := fun _ => Some (Error "socket.write is not a function")
|}.

(** Modelled from the spec: the question and the answer of a quiz are
    non-empty texts; a write with an empty text is rejected with one
    message for each empty field. *)
Definition not_empty_model : Model := {|
  validate := fun _ _ q a =>
    match (if q =? "" then ["question empty"] else [])
          ++ (if a =? "" then ["answer empty"] else []) with
    | [] => None
    | errors => Some ("Validation error", errors)
    end%list
|}.

(** [Math.random()] returning 0 on every call. *)
Definition zero_random : nat -> Js.unit_interval :=
  fun _ => Js.mk_random 0 1 (le_n 1).

Definition two_quizzes : list quiz :=
  [mk_quiz 1 "2+2" "4"; mk_quiz 2 "capital of France" "Paris"].

Definition session (rows : list quiz) (lines : list string) : world :=
  mk_world rows lines zero_random.

(** * The vocabulary of the statements *)

(** ** Texts *)

(** An integer that a Number holds exactly, so that [parseInt] returns
    it unrounded: its magnitude is at most 2^53. *)
Definition exact_as_number (z : Z) : Prop := (Z.abs z <= 2 ^ 53)%Z.

(** A string that does not begin with white space. *)
Definition no_leading_space (s : string) : Prop :=
  match s with
  | EmptyString => True
  | String c _ => Js.is_space c = false
  end.

(** What may follow a decimal numeral without changing what [parseInt]
    reads: the end of the string, or a code unit that is neither a decimal
    digit nor the [x] of a hexadecimal prefix. *)
Definition stops (rest : string) : bool :=
  match rest with
  | EmptyString => true
  | String c _ =>
      match Js.digit_value 10 c with
      | Some _ => false
      | None => negb (Ascii.eqb c "x" || Ascii.eqb c "X")
      end
  end.

(** The radix selection of [parseInt] on what follows the sign. *)
Definition radix_and_digits (s2 : string) : Z * string :=
  match s2 with
  | String "0" (String "x" r) => (16%Z, r)
  | String "0" (String "X" r) => (16%Z, r)
  | _ => (10%Z, s2)
  end.

Definition all_spaces (ws : string) : bool :=
  forallb Js.is_space (list_ascii_of_string ws).



(** ** Traces *)

Section Vocabulary.

Context {out : Out}.

(** The two outcome lines of [testCmd]. *)
Definition verdict (correct : bool) : list event :=
  if correct
  then [Log "Su respuesta es correcta." None; BigLog "Correcta" "green"]
  else [Log "Su respuesta es incorrecta." None; BigLog "Incorrecta" "red"].

(** The events of a round, by name. *)
Definition ask (quiz : quiz) : event :=
  Question (colorize (question quiz ++ "? ") "red").

Definition correcto (score : nat) : event :=
  Log (" CORRECTO - Lleva " ++ Js.show (Z.of_nat score) ++ " aciertos.") None.

Definition game_over (score : nat) : list event :=
  [Log (fin_del_juego score) None; BigLog (Js.show (Z.of_nat score)) "magenta"].

Definition won_events (score : nat) : list event :=
  Log (" No hay nada m" ++ Latin1.a' ++ "s que preguntar") None
  :: game_over score ++ [Prompt].

Definition lost_events (score : nat) : list event :=
  Log " INCORRECTO" None :: game_over score ++ [Prompt].

(** One call of [playOne] whose promise is dropped, as all of them are. *)
Definition round (preg_resp : list quiz) (toBeResolved : list nat)
    (score : nat) (w : world) : list event * world * outcome unit :=
  run (dropped (playOne preg_resp toBeResolved score)) false w.

(** What the chain of [playCmd] adds to the round it starts: its last
    [rl.prompt()], as soon as the round first waits for a line. *)
Definition early_prompt (t : list event) : list event :=
  match t with
  | Question q :: t' => Question q :: Prompt :: t'
  | _ => t ++ [Prompt]
  end.

(** The pool holds distinct positions of the loaded list. *)
Definition pool_ok (preg_resp : list quiz) (pool : list nat) : Prop :=
  NoDup pool /\ Forall (fun i => i < List.length preg_resp) pool.

(** The position [i] of the loaded list holds the quiz asked by [q]. *)
Definition asks_position (preg : list quiz) (i : nat) (q : string) : Prop :=
  exists quiz, nth_error preg i = Some quiz /\ Question q = ask quiz.

(** The queries of the questions asked in a trace. *)
Definition asked (t : list event) : list string :=
  flat_map (fun ev => match ev with Question q => [q] | _ => [] end) t.

(** A trace without the [rl.prompt()] signals. *)
Definition outputs (t : list event) : list event :=
  filter (fun ev => match ev with Prompt => false | _ => true end) t.

(** The course of a round: it is won, or a question waits for its answer,
    or is answered wrongly, or is answered rightly and the round goes
    on. *)
Inductive course : Type :=
| Won
| Pending (quiz : quiz)
| Lost (quiz : quiz) (line : string)
| Right (quiz : quiz) (line : string) (next : course).

(** What a course emits from a given score on. *)
Fixpoint events_of (score : nat) (c : course) : list event :=
  match c with
  | Won =>
      Log (" No hay nada m" ++ Latin1.a' ++ "s que preguntar") None
      :: game_over score
  | Pending quiz => [ask quiz]
  | Lost quiz line =>
      ask quiz :: Line line :: Log " INCORRECTO" None :: game_over score
  | Right quiz line next =>
      ask quiz :: Line line :: correcto (score + 1)
      :: events_of (score + 1) next
  end.

(** Every quiz of the course is one of the loaded ones; a line counted as
    right agrees with the stored answer once both are trimmed and
    lower-cased, and the comparison of the code decided each verdict. *)
Fixpoint judged (preg_resp : list quiz) (c : course) : Prop :=
  match c with
  | Won => True
  | Pending quiz => In quiz preg_resp
  | Lost quiz line =>
      In quiz preg_resp /\ matches (Js.trim line) quiz = false
  | Right quiz line next =>
      In quiz preg_resp
      /\ matches (Js.trim line) quiz = true
      /\ Js.toLowerCase (Js.trim line) = Js.toLowerCase (Js.trim (answer quiz))
      /\ judged preg_resp next
  end.

(** The line of [listCmd] for one quiz. *)
Definition list_line (quiz : quiz) : event :=
  Log (" [" ++ colorize (Js.show (id quiz)) "magenta" ++ "]: "
       ++ question quiz) None.

(** The line of [showCmd] for one quiz. *)
Definition show_line (quiz : quiz) : event :=
  Log (" [" ++ colorize (Js.show (id quiz)) "magenta" ++ "]:  "
       ++ question quiz ++ " " ++ colorize "=>" "magenta" ++ " "
       ++ answer quiz) None.

(** The first line of [playOne] when the pool is empty. *)
Definition nothing_left : event :=
  Log (" No hay nada m" ++ Latin1.a' ++ "s que preguntar") None.

(** The lines that a trace hands to question callbacks. *)
Definition lines_read (t : list event) : list string :=
  flat_map (fun ev => match ev with Line l => [l] | _ => [] end) t.

(** The number of [rl.prompt()] signals of a trace. *)
Definition ready_signals (t : list event) : nat :=
  List.length
    (filter (fun ev => match ev with Prompt => true | _ => false end) t).

(** What the field messages of a rejected write leave on the channel when
    each is handed to [errorlog] in the place of the socket: the line for
    the first exception thrown, if any. *)
Fixpoint stray_lines (errors : list string) : list event :=
  match errors with
  | [] => []
  | m :: errors' =>
      match errorlog_stray m with
      | Some e => [ErrorLog (message e)]
      | None => stray_lines errors'
      end
  end.

End Vocabulary.

Ltac run_handler :=
  unfold trace, final_rows, result, exec; cbn.

Ltac run_chain :=
  unfold exec, catch_, catch_ValidationError;
  cbn [makeQuestion then_ catch_when run create save findById
       isValidationError errorlog log rl_prompt
       input rows with_input with_rows fst snd].

(** * Properties *)

(** ** The built-ins and the handlers on sample inputs *)

Example parseInt_samples :
  map Js.parseInt ["42"; "  -7abc"; "+3.9"; "0x1F"; "abc"; ""; "0x"; "-"; "-0"]
  = [Some 42; Some (-7); Some 3; Some 31; None; None; None; None; Some 0]%Z.
Proof. reflexivity. Qed.

Example show_samples :
  map Js.show [0; 7; -12; 2026]%Z = ["0"; "7"; "-12"; "2026"].
Proof. reflexivity. Qed.

Example trim_samples :
  map Js.trim ["  a b  "; "x"; "   "; ""] = ["a b"; "x"; ""; ""].
Proof. reflexivity. Qed.

Example toLowerCase_samples :
  map Js.toLowerCase ["Paris"; "A-Z [0]"] = ["paris"; "a-z [0]"].
Proof. reflexivity. Qed.

(** The scenario of the specification: on the table of two quizzes,
    ["4"], [" 4 "] and ["paris"] are judged correct, a play with both
    answers right ends with the banner ["2"], and [show 99] reports that
    the quiz does not exist. *)
Example scenario_test :
  map (fun '(arg, line) =>
         outputs (trace (testCmd (out := plain_out) (Some arg))
                    (session two_quizzes [line])))
    [("1", "4"); ("1", " 4 "); ("2", "paris")]
  = [Question "2+2? " :: Line "4" :: verdict true;
     Question "2+2? " :: Line " 4 " :: verdict true;
     Question "capital of France? " :: Line "paris" :: verdict true].
Proof. reflexivity. Qed.

Example scenario_play :
  exec (playCmd (out := plain_out)) (session two_quizzes ["4"; "paris"])
  = (Question "2+2? " :: Prompt :: Line "4" :: correcto 1
     :: Question "capital of France? " :: Line "paris" :: correcto 2
     :: won_events 2,
     mk_world two_quizzes [] (fun n => zero_random (S (S n))),
     Fulfilled tt).
Proof. reflexivity. Qed.

Example scenario_show :
  trace (showCmd (out := plain_out) (Some "99")) (session two_quizzes [])
  = [ErrorLog "No existe un quiz asociado al id=99."; Prompt].
Proof. reflexivity. Qed.

Example listCmd_sample :
  trace (listCmd (out := plain_out)) (session two_quizzes [])
  = [Log " [1]: 2+2" None; Log " [2]: capital of France" None; Prompt].
Proof. reflexivity. Qed.

Example quitCmd_sample :
  trace quitCmd (session two_quizzes []) = [RlClose; SocketEnd].
Proof. reflexivity. Qed.

(** ** Strings *)

Lemma is_space_lower_char c : Js.is_space (Js.lower_char c) = Js.is_space c.
Proof. destruct c as [[] [] [] [] [] [] [] []]; reflexivity. Qed.

Lemma trimStart_toLowerCase s :
  Js.trimStart (Js.toLowerCase s) = Js.toLowerCase (Js.trimStart s).
Proof.
  induction s as [|c s IH]; simpl; [reflexivity|].
  rewrite is_space_lower_char. destruct (Js.is_space c); [exact IH | reflexivity].
Qed.

Lemma trimEnd_toLowerCase s :
  Js.trimEnd (Js.toLowerCase s) = Js.toLowerCase (Js.trimEnd s).
Proof.
  induction s as [|c s IH]; simpl; [reflexivity|].
  rewrite IH, is_space_lower_char.
  destruct (Js.trimEnd s); simpl; [destruct (Js.is_space c)|]; reflexivity.
Qed.

Lemma trim_toLowerCase s :
  Js.trim (Js.toLowerCase s) = Js.toLowerCase (Js.trim s).
Proof.
  unfold Js.trim. now rewrite trimStart_toLowerCase, trimEnd_toLowerCase.
Qed.

Lemma trimEnd_idempotent s : Js.trimEnd (Js.trimEnd s) = Js.trimEnd s.
Proof.
  induction s as [|c s IH]; simpl; [reflexivity|].
  destruct (Js.trimEnd s) as [|c' t] eqn:E.
  - destruct (Js.is_space c) eqn:Ec; simpl; [reflexivity | now rewrite Ec].
  - change (Js.trimEnd (String c (String c' t)))
      with (match Js.trimEnd (String c' t) with
            | EmptyString =>
                if Js.is_space c then EmptyString else String c EmptyString
            | u => String c u
            end).
    now rewrite IH.
Qed.

Lemma trimStart_no_leading_space s : no_leading_space (Js.trimStart s).
Proof.
  induction s as [|c s IH]; simpl; [exact I|].
  destruct (Js.is_space c) eqn:E; [exact IH | exact E].
Qed.

Lemma trimStart_fixed s : no_leading_space s -> Js.trimStart s = s.
Proof. destruct s as [|c s]; simpl; [reflexivity|]. now intros ->. Qed.

Lemma trimEnd_no_leading_space s :
  no_leading_space s -> no_leading_space (Js.trimEnd s).
Proof.
  destruct s as [|c s]; simpl; [trivial|]. intros E.
  destruct (Js.trimEnd s); [rewrite E|]; exact E.
Qed.

Lemma trim_idempotent s : Js.trim (Js.trim s) = Js.trim s.
Proof.
  unfold Js.trim.
  rewrite (trimStart_fixed (Js.trimEnd (Js.trimStart s))).
  - apply trimEnd_idempotent.
  - apply trimEnd_no_leading_space, trimStart_no_leading_space.
Qed.

(** ** Decimal numerals and [parseInt] *)

Lemma digits_stops rest acc : stops rest = true -> Js.digits 10 rest acc = acc.
Proof.
  destruct rest as [|c rest]; simpl; [reflexivity|].
  destruct (Js.digit_value 10 c); [discriminate | reflexivity].
Qed.

Lemma digits_numeral d rest a :
  stops rest = true ->
  Js.digits 10 (NilEmpty.string_of_uint d ++ rest) (Some a)
  = Some (a * 10 ^ Z.of_N (Unsigned.usize d)
          + Z.of_N (Unsigned.of_lu (Decimal.rev d)))%Z.
Proof.
  intros Hrest. revert a.
  induction d; intros a;
    [ simpl; rewrite digits_stops by assumption; f_equal; lia | .. ];
    cbn [NilEmpty.string_of_uint String.append Js.digits];
    change (Js.digit_value 10 _) with (Some 0%Z) ||
    change (Js.digit_value 10 _) with (Some 1%Z) ||
    change (Js.digit_value 10 _) with (Some 2%Z) ||
    change (Js.digit_value 10 _) with (Some 3%Z) ||
    change (Js.digit_value 10 _) with (Some 4%Z) ||
    change (Js.digit_value 10 _) with (Some 5%Z) ||
    change (Js.digit_value 10 _) with (Some 6%Z) ||
    change (Js.digit_value 10 _) with (Some 7%Z) ||
    change (Js.digit_value 10 _) with (Some 8%Z) ||
    change (Js.digit_value 10 _) with (Some 9%Z);
    cbv iota; rewrite IHd; f_equal;
    match goal with
    | |- context [Decimal.rev (?c d)] =>
        change (Decimal.rev (c d)) with (Decimal.revapp d (c Decimal.Nil));
        rewrite (Unsigned.of_lu_revapp d (c Decimal.Nil))
    end;
    cbn [Unsigned.usize Unsigned.of_lu];
    rewrite N2Z.inj_add, N2Z.inj_mul, N2Z.inj_pow, N2Z.inj_succ,
      Z.pow_succ_r by apply N2Z.is_nonneg;
    cbn [Z.of_N N.mul N.add Pos.mul Pos.add]; lia.
Qed.

Lemma of_uint_first_digit d :
  Z.of_uint d = Z.of_N (Unsigned.of_lu (Decimal.rev d)).
Proof. unfold Z.of_uint. now rewrite Unsigned.of_uint_alt. Qed.

Lemma digits_numeral_first d rest :
  d <> Decimal.Nil -> stops rest = true ->
  Js.digits 10 (NilEmpty.string_of_uint d ++ rest) None = Some (Z.of_uint d).
Proof.
  intros Hd Hrest. rewrite of_uint_first_digit.
  destruct d; [contradiction | ..];
    cbn [NilEmpty.string_of_uint String.append Js.digits];
    match goal with
    | |- context [Js.digit_value 10 ?c] =>
        let v := eval vm_compute in (Js.digit_value 10 c) in
        change (Js.digit_value 10 c) with v
    end;
    cbv iota; rewrite digits_numeral by assumption; f_equal;
    match goal with
    | |- context [Decimal.rev (?c d)] =>
        change (Decimal.rev (c d)) with (Decimal.revapp d (c Decimal.Nil));
        rewrite (Unsigned.of_lu_revapp d (c Decimal.Nil))
    end;
    cbn [Unsigned.of_lu];
    rewrite N2Z.inj_add, N2Z.inj_mul, N2Z.inj_pow;
    cbn [Z.of_N N.mul N.add Pos.mul Pos.add]; lia.
Qed.

Lemma radix_of_numeral d rest :
  d <> Decimal.Nil -> stops rest = true ->
  radix_and_digits (NilEmpty.string_of_uint d ++ rest)
  = (10%Z, NilEmpty.string_of_uint d ++ rest).
Proof.
  intros Hd Hrest.
  destruct d as [|d|d|d|d|d|d|d|d|d|d]; [contradiction | | reflexivity ..].
  destruct d; try reflexivity.
  destruct rest as [|c rest]; [reflexivity|].
  destruct c as [[] [] [] [] [] [] [] []]; try reflexivity; discriminate.
Qed.

Lemma numeral_no_sign d rest :
  d <> Decimal.Nil ->
  exists c s, NilEmpty.string_of_uint d ++ rest = String c s
              /\ Js.is_space c = false /\ c <> "-"%char /\ c <> "+"%char.
Proof.
  intros Hd.
  destruct d; [contradiction | ..]; cbn [NilEmpty.string_of_uint String.append];
    eexists _, _; (split; [reflexivity|]); (split; [reflexivity|]);
    split; discriminate.
Qed.

Lemma parseInt_unsigned s :
  (exists c s', s = String c s' /\ Js.is_space c = false
                /\ c <> "-"%char /\ c <> "+"%char) ->
  Js.parseInt s
  = Js.digits (fst (radix_and_digits s)) (snd (radix_and_digits s)) None.
Proof.
  intros (c & s' & -> & Hsp & Hm & Hp).
  unfold Js.parseInt. cbn [Js.trimStart]. rewrite Hsp.
  assert (E : (match String c s' with
               | String "-" r => ((-1)%Z, r)
               | String "+" r => (1%Z, r)
               | _ => (1%Z, String c s')
               end) = (1%Z, String c s')).
  { destruct c as [[] [] [] [] [] [] [] []]; try reflexivity; congruence. }
  rewrite E. fold (radix_and_digits (String c s')).
  destruct (radix_and_digits (String c s')) as [radix s3]; cbn [fst snd].
  destruct (Js.digits radix s3 None) as [v|]; cbn [option_map];
    [destruct v|]; reflexivity.
Qed.

Lemma parseInt_negative s :
  Js.parseInt (String "-" s)
  = option_map Z.opp
      (Js.digits (fst (radix_and_digits s)) (snd (radix_and_digits s)) None).
Proof.
  unfold Js.parseInt. cbn [Js.trimStart].
  change (Js.is_space "-") with false. cbv iota.
  fold (radix_and_digits s).
  destruct (radix_and_digits s) as [radix s3]; cbn [fst snd].
  destruct (Js.digits radix s3 None) as [v|]; cbn [option_map];
    [destruct v|]; reflexivity.
Qed.

Lemma parseInt_leading_space ws s :
  forallb Js.is_space (list_ascii_of_string ws) = true ->
  Js.parseInt (ws ++ s) = Js.parseInt s.
Proof.
  intros Hws. unfold Js.parseInt.
  replace (Js.trimStart (ws ++ s)) with (Js.trimStart s); [reflexivity|].
  induction ws as [|c ws IH]; simpl in *; [reflexivity|].
  apply andb_prop in Hws as [-> Hws]. auto.
Qed.

Lemma to_uint_not_nil p : Pos.to_uint p <> Decimal.Nil.
Proof. apply Unsigned.to_uint_nonnil. Qed.

(** [parseInt] reads back the decimal numeral of every integer, whatever
    white space precedes it and whatever text that [stops] follows it. *)
Lemma parseInt_show z ws rest :
  forallb Js.is_space (list_ascii_of_string ws) = true ->
  stops rest = true ->
  Js.parseInt (ws ++ Js.show z ++ rest) = Some z.
Proof.
  intros Hws Hrest. rewrite parseInt_leading_space by assumption.
  unfold Js.show. pose proof (DecimalZ.of_to z) as Hz.
  destruct z as [|p|p]; cbn [Z.to_int NilZero.string_of_int] in *.
  - destruct rest as [|c rest]; [reflexivity|].
    simpl in Hrest.
    destruct c as [[] [] [] [] [] [] [] []]; try discriminate; reflexivity.
  - pose proof (to_uint_not_nil p) as Hd.
    replace (NilZero.string_of_uint (Pos.to_uint p))
      with (NilEmpty.string_of_uint (Pos.to_uint p))
      by (destruct (Pos.to_uint p); [contradiction | reflexivity ..]).
    rewrite parseInt_unsigned by (apply numeral_no_sign; assumption).
    rewrite radix_of_numeral by assumption. cbn [fst snd].
    rewrite digits_numeral_first by assumption. f_equal. exact Hz.
  - pose proof (to_uint_not_nil p) as Hd.
    replace (NilZero.string_of_uint (Pos.to_uint p))
      with (NilEmpty.string_of_uint (Pos.to_uint p))
      by (destruct (Pos.to_uint p); [contradiction | reflexivity ..]).
    cbn [String.append]. rewrite parseInt_negative.
    rewrite radix_of_numeral by assumption. cbn [fst snd].
    rewrite digits_numeral_first by assumption. cbn [option_map]. f_equal.
    exact Hz.
Qed.

(** ** The id validator *)





(** ** Commands on an id that no row has *)

Lemma filter_missing_id i rows :
  find (has_id i) rows = None ->
  filter (fun r => negb (has_id i r)) rows = rows.
Proof.
  induction rows as [|r rows IH]; simpl; [reflexivity|].
  destruct (has_id i r); [discriminate|]. intros H. simpl. now rewrite IH.
Qed.

(** C6, as the code has it.  For an id that parses as an integer, one
    that a Number holds exactly, and that no row has, show, test and edit
    each report the not-found error on the channel and leave the table as
    it was; delete leaves the table as it was and reports nothing. *)
Theorem missing_id_leaves_store_unchanged
    {out : Out} {model : Model} (w : world) (arg : string) (i : Z) :
  Js.parseInt arg = Some i ->
  exact_as_number i ->
  find (has_id i) (rows w) = None ->
  (trace (showCmd (Some arg)) w = [ErrorLog (not_found (Some arg)); Prompt]
   /\ final_rows (showCmd (Some arg)) w = rows w)
  /\ (trace (testCmd (Some arg)) w = [ErrorLog (not_found (Some arg)); Prompt]
      /\ final_rows (testCmd (Some arg)) w = rows w)
  /\ (trace (editCmd (Some arg)) w = [ErrorLog (not_found (Some arg)); Prompt]
      /\ final_rows (editCmd (Some arg)) w = rows w)
  /\ (trace (deleteCmd (Some arg)) w = [Prompt]
      /\ final_rows (deleteCmd (Some arg)) w = rows w).
Proof.
  intros Hparse _ Hfind.
  repeat split;
    unfold showCmd, testCmd, editCmd, deleteCmd, validateId;
    rewrite Hparse; run_handler; rewrite ?Hfind; cbn;
    rewrite ?filter_missing_id by assumption; reflexivity.
Qed.

Lemma missing_id_leaves_store_unchanged_witness :
  trace (showCmd (out := plain_out) (Some "99")) (session two_quizzes [])
  = [ErrorLog "No existe un quiz asociado al id=99."; Prompt]
  /\ final_rows (editCmd (out := plain_out) (model := not_empty_model)
                   (Some "99")) (session two_quizzes []) = two_quizzes
  /\ final_rows (deleteCmd (Some "99"))
       (session two_quizzes []) = two_quizzes.
Proof.
  assert (Hexact : exact_as_number 99) by (vm_compute; discriminate).
  destruct (missing_id_leaves_store_unchanged (out := plain_out)
              (model := not_empty_model) (session two_quizzes []) "99" 99
              eq_refl Hexact eq_refl)
    as ((Hshow & _) & _ & (_ & Hedit) & (_ & Hdelete)).
  split; [exact Hshow|]. split; [exact Hedit | exact Hdelete].
Defined.

(** C6 as stated fails for delete: for the id 99, which parses and which
    no row has, [deleteCmd] reports no error at all. *)
Lemma deleteCmd_reports_nothing :
  Js.parseInt "99" = Some 99%Z
  /\ find (has_id 99) two_quizzes = None
  /\ trace (deleteCmd (Some "99")) (session two_quizzes [])
     = [Prompt].
Proof. repeat split. Qed.

(** ** Test *)

(** C2, as the code has it.  On an existing quiz, test asks its one
    question, takes one line, and judges it correct exactly when the
    trimmed, lower-cased line equals the lower-cased stored answer, which
    is not trimmed; it emits the outcome line and the banner of that
    verdict and asks nothing more.  For a stored answer without white space
    around it this is the comparison of both texts trimmed and
    lower-cased. *)
Theorem testCmd_judges_one_line
    {out : Out} (w : world) (arg : string) (i : Z) (quiz : quiz)
    (line : string) (rest : list string) :
  Js.parseInt arg = Some i ->
  find (has_id i) (rows w) = Some quiz ->
  input w = line :: rest ->
  let correct :=
    (Js.toLowerCase (Js.trim line) =? Js.toLowerCase (answer quiz))%string in
  trace (testCmd (Some arg)) w
  = Question (colorize (question quiz ++ "? ") "red") :: Line line
    :: verdict correct ++ [Prompt; Prompt]
  /\ final_rows (testCmd (Some arg)) w = rows w
  /\ (Js.trim (answer quiz) = answer quiz ->
      (correct = true
       <-> Js.toLowerCase (Js.trim line)
           = Js.toLowerCase (Js.trim (answer quiz)))).
Proof.
  intros Hparse Hfind Hin correct.
  assert (Hm : matches (Js.trim line) quiz = correct).
  { unfold matches, correct. now rewrite trim_idempotent. }
  split; [|split].
  - unfold testCmd, validateId. rewrite Hparse. run_handler.
    rewrite Hfind. cbn. rewrite Hin. cbn. rewrite Hm.
    destruct correct; reflexivity.
  - unfold testCmd, validateId. rewrite Hparse. run_handler.
    rewrite Hfind. cbn. rewrite Hin. cbn. rewrite Hm.
    destruct correct; reflexivity.
  - intros Htrim. rewrite Htrim. apply String.eqb_eq.
Qed.

Lemma testCmd_judges_one_line_witness :
  trace (testCmd (out := plain_out) (Some "2")) (session two_quizzes [" PARIS "])
  = [Question "capital of France? "; Line " PARIS ";
     Log "Su respuesta es correcta." None; BigLog "Correcta" "green";
     Prompt; Prompt].
Proof.
  exact (proj1 (testCmd_judges_one_line (out := plain_out)
                  (session two_quizzes [" PARIS "]) "2" 2
                  (mk_quiz 2 "capital of France" "Paris") " PARIS " []
                  eq_refl eq_refl eq_refl)).
Defined.

(** C2 as stated fails when the stored answer has white space around it:
    the line and the answer agree once both are trimmed and lower-cased,
    and the line is judged incorrect. *)
Lemma testCmd_does_not_trim_the_answer :
  Js.toLowerCase (Js.trim "4") = Js.toLowerCase (Js.trim " 4")
  /\ trace (testCmd (out := plain_out) (Some "1"))
       (session [mk_quiz 1 "2+2" " 4"] ["4"])
     = [Question "2+2? "; Line "4";
        Log "Su respuesta es incorrecta." None; BigLog "Incorrecta" "red";
        Prompt; Prompt].
Proof. split; reflexivity. Qed.

(** ** Edit *)

Lemma find_has_id i rows quiz :
  find (has_id i) rows = Some quiz -> id quiz = i.
Proof.
  intros H. apply find_some in H as [_ H]. now apply Z.eqb_eq in H.
Qed.

(** C1 fails on the code.  On an existing quiz, when the store accepts the
    write, the row that edit saves has the second response, trimmed, as
    its question and keeps the answer it had: the first response is
    overwritten and the answer is never set. *)
Theorem editCmd_saves_second_response_as_question
    {out : Out} {model : Model} (w : world) (arg : string) (i : Z)
    (old : quiz) (first second : string) (rest : list string) :
  Js.parseInt arg = Some i ->
  find (has_id i) (rows w) = Some old ->
  input w = first :: second :: rest ->
  validate (rows w) (Some i) (Js.trim second) (answer old) = None ->
  let saved := mk_quiz i (Js.trim second) (answer old) in
  final_rows (editCmd (Some arg)) w
  = map (fun r => if has_id i r then saved else r) (rows w)
  /\ find (has_id i) (final_rows (editCmd (Some arg)) w) = Some saved.
Proof.
  intros Hparse Hfind Hin Hvalid saved.
  pose proof (find_has_id _ _ _ Hfind) as Hid.
  assert (E : final_rows (editCmd (Some arg)) w
              = map (fun r => if has_id i r then saved else r) (rows w)).
  { unfold editCmd, validateId. rewrite Hparse. run_handler.
    rewrite Hfind. cbn. rewrite Hin. cbn. rewrite Hid, Hvalid. reflexivity. }
  split; [exact E|]. rewrite E. clear E Hvalid Hin.
  induction (rows w) as [|r rows' IH]; [discriminate|].
  cbn [map find] in *. destruct (has_id i r) eqn:Er.
  - unfold has_id at 1. cbn [id saved]. now rewrite Z.eqb_refl.
  - rewrite Er. auto.
Qed.

Lemma editCmd_saves_second_response_as_question_witness :
  final_rows (editCmd (out := plain_out) (model := not_empty_model) (Some "1"))
    (session two_quizzes ["two plus two"; "four"])
  = [mk_quiz 1 "four" "4"; mk_quiz 2 "capital of France" "Paris"].
Proof.
  exact (proj1 (editCmd_saves_second_response_as_question
                  (out := plain_out) (model := not_empty_model)
                  (session two_quizzes ["two plus two"; "four"]) "1" 1
                  (mk_quiz 1 "2+2" "4") "two plus two" "four" []
                  eq_refl eq_refl eq_refl eq_refl)).
Defined.

(** ** Validation errors of add and edit *)

(** C8 fails on the code.  When the store rejects the write of add or of
    edit, the header line is written on the channel, but each field message
    is handed to [errorlog] in the place of the socket: whatever [errorlog]
    does with it, no line for a field message reaches the channel; at most
    one more error line follows, for what the first such call throws.
    Here add is given two empty texts (two field messages) and edit an
    empty second response (one field message). *)
Theorem validation_messages_miss_the_channel (out : Out) :
  trace (addCmd (model := not_empty_model)) (session [] [""; ""])
  = ([Question (colorize " Introduzca una pregunta: " "red"); Line "";
      Question (colorize " Introduzca la respuesta " "red"); Line "";
      ErrorLog quiz_erroneo]
     ++ match errorlog_stray "question empty" with
        | Some e => [ErrorLog (message e)]
        | None =>
            match errorlog_stray "answer empty" with
            | Some e => [ErrorLog (message e)]
            | None => []
            end
        end
     ++ [Prompt])%list
  /\ trace (editCmd (model := not_empty_model) (Some "1"))
       (session two_quizzes ["2 + 2"; ""])
     = ([Question (colorize " Introduzca la pregunta " "red"); Line "2 + 2";
         Question (colorize " Introduzca la respuesta " "red"); Line "";
         ErrorLog quiz_erroneo]
        ++ match errorlog_stray "question empty" with
           | Some e => [ErrorLog (message e)]
           | None => []
           end
        ++ [Prompt])%list.
Proof.
  split; run_handler; unfold errorlog_no_socket;
    destruct (errorlog_stray "question empty"); cbn; try reflexivity.
  destruct (errorlog_stray "answer empty"); reflexivity.
Qed.

(** The same two runs when [errorlog] fails on a string the way
    [socket.write] does. *)
Example validation_error_lines :
  trace (addCmd (out := plain_out) (model := not_empty_model))
    (session [] [""; ""])
  = [Question " Introduzca una pregunta: "; Line "";
     Question " Introduzca la respuesta "; Line "";
     ErrorLog "El quiz es erroneo:";
     ErrorLog "socket.write is not a function"; Prompt].
Proof. reflexivity. Qed.

(** ** Add, then show *)

Lemma fresh_id_above rows r : In r rows -> (id r < fresh_id rows)%Z.
Proof.
  unfold fresh_id.
  induction rows as [|r' rows IH]; cbn [In map fold_right]; [contradiction|].
  intros [-> | H]; [lia|]. specialize (IH H). lia.
Qed.

Lemma find_appended n rows q a :
  (forall r, In r rows -> has_id n r = false) ->
  find (has_id n) (rows ++ [mk_quiz n q a]) = Some (mk_quiz n q a).
Proof.
  induction rows as [|r rows IH]; intros H; simpl.
  - unfold has_id. simpl. now rewrite Z.eqb_refl.
  - rewrite (H r) by (now left). apply IH. intros r' Hr'. apply H. now right.
Qed.

Lemma find_fresh_id rows q a :
  find (has_id (fresh_id rows)) (rows ++ [mk_quiz (fresh_id rows) q a])
  = Some (mk_quiz (fresh_id rows) q a).
Proof.
  apply find_appended. intros r Hr. apply Z.eqb_neq.
  pose proof (fresh_id_above rows r Hr). lia.
Qed.

Lemma parseInt_show_exact z : Js.parseInt (Js.show z) = Some z.
Proof.
  pose proof (parseInt_show z "" "" eq_refl eq_refl) as H.
  cbn [String.append] in H.
  assert (E : forall s, s ++ "" = s)
    by (induction s as [|c s IH]; simpl; [reflexivity | now rewrite IH]).
  now rewrite E in H.
Qed.

Lemma showCmd_found {out : Out} (w : world) (arg : string) (i : Z) (quiz : quiz) :
  Js.parseInt arg = Some i ->
  find (has_id i) (rows w) = Some quiz ->
  trace (showCmd (Some arg)) w
  = [Log (" [" ++ colorize (Js.show (id quiz)) "magenta" ++ "]:  "
          ++ question quiz ++ " " ++ colorize "=>" "magenta" ++ " "
          ++ answer quiz) None;
     Prompt]
  /\ final_rows (showCmd (Some arg)) w = rows w.
Proof.
  intros Hparse Hfind. unfold showCmd, validateId. rewrite Hparse.
  run_handler. rewrite Hfind. split; reflexivity.
Qed.

(** C9. When add is given two responses that the store accepts, it creates
    a row holding the two responses, as [makeQuestion] delivers them
    (trimmed), under a new id; show with the numeral of that id then emits
    one line with exactly that question and that answer. *)
Theorem addCmd_then_showCmd
    {out : Out} {model : Model} (w : world) (first second : string)
    (rest : list string) :
  input w = first :: second :: rest ->
  validate (rows w) None (Js.trim first) (Js.trim second) = None ->
  let q := Js.trim first in
  let a := Js.trim second in
  let created := mk_quiz (fresh_id (rows w)) q a in
  let w' := snd (fst (exec addCmd w)) in
  rows w' = (rows w ++ [created])%list
  /\ trace addCmd w
     = [Question (colorize " Introduzca una pregunta: " "red"); Line first;
        Question (colorize " Introduzca la respuesta " "red"); Line second;
        Log (" [" ++ colorize ("Se ha a" ++ Latin1.n' ++ "adido") "magenta"
             ++ "]:  " ++ q ++ " " ++ colorize "=>" "magenta" ++ " " ++ a)
          None;
        Prompt]
  /\ trace (showCmd (Some (Js.show (id created)))) w'
     = [Log (" [" ++ colorize (Js.show (id created)) "magenta" ++ "]:  "
             ++ q ++ " " ++ colorize "=>" "magenta" ++ " " ++ a) None;
        Prompt]
  /\ final_rows (showCmd (Some (Js.show (id created)))) w' = rows w'.
Proof.
  intros Hin Hvalid q a created w'.
  assert (Hw' : w' = with_rows (with_input w rest) (rows w ++ [created])%list).
  { unfold w', exec, addCmd. cbn. rewrite Hin. cbn. rewrite Hvalid.
    reflexivity. }
  split; [now rewrite Hw'|]. split.
  - unfold trace, exec, addCmd. cbn. rewrite Hin. cbn. rewrite Hvalid.
    reflexivity.
  - rewrite Hw'. clear Hw' w'.
    apply (showCmd_found _ _ (fresh_id (rows w)) created).
    + apply parseInt_show_exact.
    + apply find_fresh_id.
Qed.

Lemma addCmd_then_showCmd_witness :
  let w := session two_quizzes ["  largest planet "; "Jupiter"] in
  let w' := snd (fst (exec (addCmd (out := plain_out)
                              (model := not_empty_model)) w)) in
  rows w' = (two_quizzes ++ [mk_quiz 3 "largest planet" "Jupiter"])%list
  /\ trace (showCmd (out := plain_out) (Some "3")) w'
     = [Log " [3]:  largest planet => Jupiter" None; Prompt].
Proof.
  destruct (addCmd_then_showCmd (out := plain_out) (model := not_empty_model)
              (session two_quizzes ["  largest planet "; "Jupiter"])
              "  largest planet " "Jupiter" [] eq_refl eq_refl)
    as (Hrows & _ & Hshow & _).
  split; [exact Hrows | exact Hshow].
Defined.

(** ** The play round *)

Section Round.

Context {out : Out}.

Lemma round_nil preg score w :
  round preg [] score w = (won_events score, w, Fulfilled tt).
Proof. unfold round. rewrite playOne_equation_1. reflexivity. Qed.

Lemma round_cons preg i pool score w :
  round preg (i :: pool) score w
  = let id := Js.floor_mul (random w 0) (List.length (i :: pool)) in
    let w1 := next_random w in
    match option_map (nth_error preg) (nth_error (i :: pool) id) with
    | Some (Some quiz) =>
        match input w1 with
        | [] => ([ask quiz], w1, Waiting)
        | l :: ls =>
            if matches (Js.trim l) quiz
            then
              let '(t, w2, o) :=
                round preg (Js.splice1 id (i :: pool)) (score + 1)
                  (with_input w1 ls) in
              (ask quiz :: Line l :: correcto (score + 1) :: t, w2, o)
            else
              (ask quiz :: Line l :: lost_events score, with_input w1 ls,
               Fulfilled tt)
        end
    | _ => ([ErrorLog question_of_undefined; Prompt], w1, Fulfilled tt)
    end.
Proof.
  unfold round at 1. rewrite playOne_equation_2.
  cbn [dropped run]. cbv zeta.
  set (id := Js.floor_mul (random w 0) (List.length (i :: pool))).
  destruct (option_map (nth_error preg) (nth_error (i :: pool) id))
    as [[quiz|]|]; try reflexivity.
  cbn [makeQuestion then_ dropped run]. cbn [input next_random].
  destruct (input w) as [|l ls]; [reflexivity|].
  destruct (matches (Js.trim l) quiz).
  - cbn [log then_ run]. fold (round preg (Js.splice1 id (i :: pool)) (score + 1)
                                  (with_input (next_random w) ls)).
    destruct (round preg (Js.splice1 id (i :: pool)) (score + 1)
                (with_input (next_random w) ls)) as [[t w2] o].
    destruct o as [[]| | |]; reflexivity.
  - reflexivity.
Qed.

Lemma playCmd_round w :
  exec playCmd w
  = let '(t, w', o) :=
      round (rows w) (seq 0 (List.length (rows w))) 0 w in
    (early_prompt t, w', o).
Proof.
  unfold exec, playCmd, findAll, catch_, catch_ValidationError.
  cbn [then_ catch_when run].
  destruct (rows w) as [|r rs] eqn:Hrows.
  - cbn [List.length seq]. rewrite round_nil, playOne_equation_1.
    reflexivity.
  - cbn [List.length seq]. rewrite round_cons, playOne_equation_2.
    cbn [dropped then_ catch_when run]. cbv zeta.
    set (id := Js.floor_mul (random w 0)
                 (List.length (0 :: seq 1 (List.length rs)))).
    destruct (option_map (nth_error (r :: rs))
                (nth_error (0 :: seq 1 (List.length rs)) id))
      as [[quiz|]|]; try reflexivity.
    cbn [makeQuestion then_ dropped catch_when rl_prompt run].
    cbn [input next_random].
    destruct (input w) as [|l ls]; [reflexivity|].
    cbn [app].
    destruct (matches (Js.trim l) quiz).
    + cbn [log then_ run].
      fold (round (r :: rs) (Js.splice1 id (0 :: seq 1 (List.length rs)))
              (0 + 1) (with_input (next_random w) ls)).
      destruct (round (r :: rs) (Js.splice1 id (0 :: seq 1 (List.length rs)))
                  (0 + 1) (with_input (next_random w) ls)) as [[t w2] o].
      destruct o as [[]| | |]; reflexivity.
    + reflexivity.
Qed.

Lemma floor_mul_below r n : 0 < n -> Js.floor_mul r n < n.
Proof.
  intros Hn. unfold Js.floor_mul. destruct r as [a b Hlt]; cbn [Js.num Js.den].
  apply Nat.Div0.div_lt_upper_bound.
  apply Nat.mul_lt_mono_pos_r; assumption.
Qed.

Lemma pool_ok_seq preg : pool_ok preg (seq 0 (List.length preg)).
Proof.
  split; [apply seq_NoDup|]. apply Forall_forall. intros i Hi.
  apply in_seq in Hi. lia.
Qed.

Lemma splice1_split {A} id (pool : list A) k :
  nth_error pool id = Some k ->
  pool = (firstn id pool ++ k :: skipn (S id) pool)%list.
Proof.
  revert pool. induction id as [|id IH]; intros [|x pool] H; try discriminate.
  - now injection H as ->.
  - cbn [nth_error] in H. cbn [firstn skipn app]. f_equal. apply IH, H.
Qed.

Lemma splice1_past_end {A} id (pool : list A) :
  nth_error pool id = None -> Js.splice1 id pool = pool.
Proof.
  intros H. apply nth_error_None in H. unfold Js.splice1.
  rewrite firstn_all2, skipn_all2 by lia. apply List.app_nil_r.
Qed.

Lemma pool_ok_splice1 preg id pool :
  pool_ok preg pool -> pool_ok preg (Js.splice1 id pool).
Proof.
  intros [Hnd Hb]. destruct (nth_error pool id) as [k|] eqn:Hk.
  - pose proof (splice1_split id pool k Hk) as E. unfold Js.splice1.
    rewrite E in Hnd, Hb. split.
    + eapply NoDup_remove_1, Hnd.
    + apply Forall_app in Hb as [H1 H2]. apply Forall_app. split; [exact H1|].
      now inversion H2.
  - rewrite splice1_past_end by assumption. now split.
Qed.

Lemma splice1_selected preg id pool k :
  pool_ok preg pool -> nth_error pool id = Some k ->
  ~ In k (Js.splice1 id pool)
  /\ incl (Js.splice1 id pool) pool
  /\ S (List.length (Js.splice1 id pool)) = List.length pool.
Proof.
  intros [Hnd _] Hk. pose proof (splice1_split id pool k Hk) as E.
  unfold Js.splice1. rewrite E in Hnd. repeat split.
  - eapply NoDup_remove_2, Hnd.
  - intros x Hx. rewrite E. apply in_or_app. apply in_app_or in Hx.
    destruct Hx; [now left | right; now right].
  - rewrite E at 3. rewrite !length_app. cbn [List.length]. lia.
Qed.

Lemma selection_defined preg pool r :
  pool <> [] -> pool_ok preg pool ->
  exists k quiz,
    nth_error pool (Js.floor_mul r (List.length pool)) = Some k
    /\ nth_error preg k = Some quiz.
Proof.
  intros Hne [_ Hb].
  assert (Hlen : 0 < List.length pool) by (destruct pool; [congruence | simpl; lia]).
  pose proof (floor_mul_below r _ Hlen) as Hid.
  destruct (nth_error pool (Js.floor_mul r (List.length pool))) as [k|] eqn:Hk;
    [|apply nth_error_None in Hk; lia].
  assert (Hin : In k pool) by (eapply nth_error_In, Hk).
  rewrite Forall_forall in Hb. specialize (Hb k Hin).
  destruct (nth_error preg k) as [quiz|] eqn:Hq;
    [|apply nth_error_None in Hq; lia].
  now exists k, quiz.
Qed.

(** Induction over the calls of [playOne] of a round that starts from a
    pool of distinct positions of the loaded list: the pool is empty, or
    the selected quiz is asked and the user has typed nothing more, or
    answers wrongly, or answers rightly and a round on the rest follows. *)
Lemma round_ind preg
    (P : list nat -> nat -> world -> list event * world * outcome unit -> Prop) :
  (forall score w, P [] score w (won_events score, w, Fulfilled tt)) ->
  (forall pool score w k quiz,
      pool_ok preg pool ->
      nth_error pool (Js.floor_mul (random w 0) (List.length pool)) = Some k ->
      nth_error preg k = Some quiz ->
      input w = [] ->
      P pool score w ([ask quiz], next_random w, Waiting)) ->
  (forall pool score w k quiz l ls,
      pool_ok preg pool ->
      nth_error pool (Js.floor_mul (random w 0) (List.length pool)) = Some k ->
      nth_error preg k = Some quiz ->
      input w = l :: ls ->
      matches (Js.trim l) quiz = false ->
      P pool score w
        (ask quiz :: Line l :: lost_events score,
         with_input (next_random w) ls, Fulfilled tt)) ->
  (forall pool score w k quiz l ls t w2 o,
      pool_ok preg pool ->
      nth_error pool (Js.floor_mul (random w 0) (List.length pool)) = Some k ->
      nth_error preg k = Some quiz ->
      input w = l :: ls ->
      matches (Js.trim l) quiz = true ->
      let pool' :=
        Js.splice1 (Js.floor_mul (random w 0) (List.length pool)) pool in
      P pool' (score + 1) (with_input (next_random w) ls) (t, w2, o) ->
      P pool score w
        (ask quiz :: Line l :: correcto (score + 1) :: t, w2, o)) ->
  forall pool score w,
    pool_ok preg pool -> P pool score w (round preg pool score w).
Proof.
  intros Hwon Hwait Hlost Hcorrect pool.
  remember (List.length pool) as n eqn:Hn. revert pool Hn.
  induction n as [|n IH]; intros pool Hn score w Hok.
  - destruct pool; [|discriminate]. rewrite round_nil. apply Hwon.
  - destruct pool as [|i pool]; [discriminate|].
    destruct (selection_defined preg (i :: pool) (random w 0))
      as (k & quiz & Hk & Hq); [discriminate | assumption |].
    rewrite round_cons. cbv zeta.
    rewrite Hk. cbn [option_map]. rewrite Hq.
    change (input (next_random w)) with (input w).
    destruct (input w) as [|l ls] eqn:Hin.
    + eapply Hwait; eauto.
    + destruct (matches (Js.trim l) quiz) eqn:Hm.
      * destruct (splice1_selected preg _ _ k Hok Hk) as (_ & _ & Hlen).
        pose proof (pool_ok_splice1 preg
                      (Js.floor_mul (random w 0) (List.length (i :: pool)))
                      (i :: pool) Hok) as Hok'.
        assert (Hn' : n = List.length
                            (Js.splice1
                               (Js.floor_mul (random w 0) (List.length (i :: pool)))
                               (i :: pool))) by lia.
        specialize (IH _ Hn' (score + 1) (with_input (next_random w) ls) Hok').
        destruct (round preg _ (score + 1) (with_input (next_random w) ls))
          as [[t w2] o].
        eapply Hcorrect; eauto.
      * eapply Hlost; eauto.
Qed.

End Round.

Section RoundProperties.

Context {out : Out}.

Lemma in_early_prompt ev t :
  In ev (early_prompt t) -> ev = Prompt \/ In ev t.
Proof.
  assert (Hend : forall l, In ev (l ++ [Prompt]) -> ev = Prompt \/ In ev l).
  { intros l H. apply in_app_or in H as [H | [H | []]]; auto. }
  unfold early_prompt. destruct t as [|e t]; [apply Hend|].
  destruct e; try apply Hend.
  intros [H | [H | H]]; [right; now left | now left | right; now right].
Qed.

Lemma asked_early_prompt t : asked (early_prompt t) = asked t.
Proof.
  unfold early_prompt, asked. destruct t as [|[] t]; try reflexivity;
    cbn [flat_map app]; rewrite ?flat_map_app; cbn [flat_map];
    now rewrite ?List.app_nil_r.
Qed.

Lemma outputs_early_prompt t : outputs (early_prompt t) = outputs t.
Proof.
  unfold early_prompt, outputs. destruct t as [|[] t]; try reflexivity;
    cbn [filter app]; rewrite ?filter_app; cbn [filter];
    now rewrite ?List.app_nil_r.
Qed.

Lemma trace_playCmd w :
  trace playCmd w
  = early_prompt
      (fst (fst (round (rows w) (seq 0 (List.length (rows w))) 0 w))).
Proof.
  unfold trace. rewrite playCmd_round.
  now destruct (round _ _ _ _) as [[t w'] o].
Qed.

Lemma result_playCmd w :
  result playCmd w
  = snd (round (rows w) (seq 0 (List.length (rows w))) 0 w).
Proof.
  unfold result. rewrite playCmd_round.
  now destruct (round _ _ _ _) as [[t w'] o].
Qed.

(** What the comparison of the code accepts agrees once both texts are
    trimmed and lower-cased. *)
Lemma matches_trimmed line quiz :
  matches (Js.trim line) quiz = true ->
  Js.toLowerCase (Js.trim line) = Js.toLowerCase (Js.trim (answer quiz)).
Proof.
  unfold matches. rewrite trim_idempotent. intros H.
  apply String.eqb_eq in H.
  rewrite <- (trim_toLowerCase (answer quiz)), <- H, trim_toLowerCase.
  now rewrite trim_idempotent.
Qed.

Lemma round_never_fails preg pool score w :
  pool_ok preg pool ->
  forall m, ~ In (ErrorLog m) (fst (fst (round preg pool score w))).
Proof.
  revert pool score w.
  apply (round_ind preg (fun _ _ _ res =>
           forall m, ~ In (ErrorLog m) (fst (fst res)))); cbn [fst snd].
  - intros score w m [H | [H | [H | [H | []]]]]; discriminate.
  - intros pool score w k quiz _ _ _ _ m [H | []]. discriminate.
  - intros pool score w k quiz l ls _ _ _ _ _ m
      [H | [H | [H | [H | [H | [H | []]]]]]]; discriminate.
  - intros pool score w k quiz l ls t w2 o _ _ _ _ _ IH m
      [H | [H | [H | H]]]; try discriminate. exact (IH m H).
Qed.

End RoundProperties.

(** C10. The pool of a round starts as the positions of the loaded list,
    each once; removing a selected position keeps it a list of distinct
    positions in bounds; on such a pool, when it is not empty, every value
    of [Math.random()] selects a position that it holds and a quiz that is
    defined; and no run of play ever writes an error line, which is what
    the selection-error branch does. *)
Theorem playCmd_selection_never_fails {out : Out} :
  (forall preg, pool_ok preg (seq 0 (List.length preg)))
  /\ (forall preg id pool,
        pool_ok preg pool -> pool_ok preg (Js.splice1 id pool))
  /\ (forall preg pool r,
        pool <> [] -> pool_ok preg pool ->
        exists k quiz,
          nth_error pool (Js.floor_mul r (List.length pool)) = Some k
          /\ nth_error preg k = Some quiz)
  /\ (forall w m, ~ In (ErrorLog m) (trace playCmd w)).
Proof.
  split; [exact pool_ok_seq|].
  split; [exact pool_ok_splice1|].
  split; [exact selection_defined|].
  intros w m H. rewrite trace_playCmd in H.
  apply in_early_prompt in H as [H | H]; [discriminate|].
  revert H. apply round_never_fails, pool_ok_seq.
Qed.

Lemma playCmd_selection_never_fails_witness :
  pool_ok two_quizzes (Js.splice1 1 [0; 1])
  /\ exists k quiz,
       nth_error [0; 1] (Js.floor_mul (zero_random 0) 2) = Some k
       /\ nth_error two_quizzes k = Some quiz.
Proof.
  destruct (playCmd_selection_never_fails (out := plain_out))
    as (Hseq & Hsplice & Hsel & _).
  split.
  - apply (Hsplice two_quizzes 1 [0; 1]), (Hseq two_quizzes).
  - apply (Hsel two_quizzes [0; 1] (zero_random 0));
      [discriminate | apply (Hseq two_quizzes)].
Defined.

Section RoundTheorems.

Context {out : Out}.

Lemma in_early_prompt_of ev t : In ev t -> In ev (early_prompt t).
Proof.
  unfold early_prompt. destruct t as [|e t]; [contradiction|].
  intros H. destruct e; try (apply in_or_app; now left).
  destruct H as [H | H]; [now left | right; now right].
Qed.

Lemma round_asks_distinct preg pool score w :
  pool_ok preg pool ->
  let res := round preg pool score w in
  exists idxs,
    NoDup idxs /\ incl idxs pool
    /\ Forall2 (asks_position preg) idxs (asked (fst (fst res)))
    /\ (List.length pool <= List.length (input w) ->
        snd res = Fulfilled tt
        /\ exists s, In (Log (fin_del_juego s) None) (fst (fst res))).
Proof.
  revert pool score w.
  apply (round_ind preg (fun pool _ w res =>
    exists idxs,
      NoDup idxs /\ incl idxs pool
      /\ Forall2 (asks_position preg) idxs (asked (fst (fst res)))
      /\ (List.length pool <= List.length (input w) ->
          snd res = Fulfilled tt
          /\ exists s, In (Log (fin_del_juego s) None) (fst (fst res)))));
    cbn [fst snd].
  - intros score w. exists []. repeat split.
    + constructor.
    + intros x [].
    + constructor.
    + exists score. right. now left.
  - intros pool score w k quiz Hok Hk Hq Hin. exists [k]. repeat split.
    + constructor; [intros [] | constructor].
    + intros x [<- | []]. eapply nth_error_In, Hk.
    + constructor; [now exists quiz | constructor].
    + rewrite Hin in H. destruct pool; [destruct (Js.floor_mul _ _)|];
        cbn in *; [discriminate .. | lia].
    + rewrite Hin in H. destruct pool; [destruct (Js.floor_mul _ _)|];
        cbn in *; [discriminate .. | lia].
  - intros pool score w k quiz l ls Hok Hk Hq Hin Hm. exists [k]. repeat split.
    + constructor; [intros [] | constructor].
    + intros x [<- | []]. eapply nth_error_In, Hk.
    + constructor; [now exists quiz | constructor].
    + exists score. right. right. right. now left.
  - intros pool score w k quiz l ls t w2 o Hok Hk Hq Hin Hm
      (idxs & Hnd & Hincl & Hasked & Hend).
    destruct (splice1_selected preg _ _ k Hok Hk) as (Hnot & Hsub & Hlen).
    exists (k :: idxs). split; [|split; [|split]].
    + constructor; [|exact Hnd]. intros H. apply Hnot, Hincl, H.
    + intros x [<- | H]; [eapply nth_error_In, Hk | apply Hsub, Hincl, H].
    + constructor; [now exists quiz | exact Hasked].
    + intros Hle. rewrite Hin in Hle. cbn [List.length input with_input] in *.
      destruct Hend as (Ho & s & Hs); [lia|].
      split; [exact Ho|]. exists s. right. right. right. exact Hs.
Qed.

Lemma round_course preg pool score w :
  pool_ok preg pool ->
  exists c,
    outputs (fst (fst (round preg pool score w))) = events_of score c
    /\ judged preg c.
Proof.
  revert pool score w.
  apply (round_ind preg (fun _ score _ res =>
    exists c, outputs (fst (fst res)) = events_of score c /\ judged preg c));
    cbn [fst snd].
  - intros score w. now exists Won.
  - intros pool score w k quiz _ _ Hq _. exists (Pending quiz).
    split; [reflexivity|]. eapply nth_error_In, Hq.
  - intros pool score w k quiz l ls _ _ Hq _ Hm. exists (Lost quiz l).
    split; [reflexivity|]. split; [eapply nth_error_In, Hq | exact Hm].
  - intros pool score w k quiz l ls t w2 o _ _ Hq _ Hm (c & Hc & Hj).
    exists (Right quiz l c). split.
    + cbn [events_of]. rewrite <- Hc. reflexivity.
    + cbn [judged]. repeat split; auto.
      * eapply nth_error_In, Hq.
      * now apply matches_trimmed.
Qed.

End RoundTheorems.

(** C3. In a round over the [N] loaded quizzes, the questions asked are
    those of pairwise distinct positions of the loaded list, so there are
    at most [N] of them; and when the user types [N] lines or more the
    round comes to its end: the chain is settled, no question is left
    waiting, and the end-of-game line with the score was written. *)
Theorem playCmd_asks_each_quiz_once {out : Out} (w : world) :
  let preg := rows w in
  let t := trace playCmd w in
  (exists idxs,
      NoDup idxs /\ Forall2 (asks_position preg) idxs (asked t))
  /\ List.length (asked t) <= List.length preg
  /\ (List.length preg <= List.length (input w) ->
      result playCmd w = Fulfilled tt
      /\ exists score, In (Log (fin_del_juego score) None) t).
Proof.
  intros preg t.
  destruct (round_asks_distinct preg (seq 0 (List.length preg)) 0 w
              (pool_ok_seq preg)) as (idxs & Hnd & Hincl & Hasked & Hend).
  unfold t. rewrite trace_playCmd, result_playCmd, asked_early_prompt.
  fold preg. split; [|split].
  - now exists idxs.
  - rewrite <- (Forall2_length Hasked).
    pose proof (NoDup_incl_length Hnd Hincl) as Hlen.
    now rewrite length_seq in Hlen.
  - intros Hle. rewrite length_seq in Hend.
    destruct (Hend Hle) as (Ho & s & Hs).
    split; [exact Ho|]. exists s. now apply in_early_prompt_of.
Qed.

Lemma playCmd_asks_each_quiz_once_witness :
  let w := session two_quizzes ["4"; "paris"] in
  result (playCmd (out := plain_out)) w = Fulfilled tt
  /\ exists score,
       In (Log (fin_del_juego score) None) (trace (playCmd (out := plain_out)) w).
Proof.
  apply (playCmd_asks_each_quiz_once (out := plain_out)
           (session two_quizzes ["4"; "paris"])).
  simpl. lia.
Defined.

(** C4. The outputs of a round follow a course that starts from score 0:
    each line counted as right raises the score by one, is announced with
    the new score, and agrees with the stored answer of the quiz asked
    once both are trimmed and lower-cased; a line that does not is never
    counted, and the line that the comparison rejects ends the round with
    the incorrect line, the score reached so far and its banner. *)
Theorem playCmd_scores_right_answers {out : Out} (w : world) :
  (exists c,
      outputs (trace playCmd w) = events_of 0 c /\ judged (rows w) c)
  /\ (forall quiz line,
        Js.toLowerCase (Js.trim line) <> Js.toLowerCase (Js.trim (answer quiz)) ->
        matches (Js.trim line) quiz = false).
Proof.
  split.
  - rewrite trace_playCmd, outputs_early_prompt.
    apply round_course, pool_ok_seq.
  - intros quiz line H. destruct (matches (Js.trim line) quiz) eqn:E;
      [|reflexivity]. now apply matches_trimmed in E.
Qed.

Lemma playCmd_scores_right_answers_witness :
  matches (Js.trim "London")
    (mk_quiz 2 "capital of France" "Paris") = false.
Proof.
  apply (proj2 (playCmd_scores_right_answers (out := plain_out)
                  (session two_quizzes []))).
  discriminate.
Defined.

(** The course of a round lost at its second question. *)
Example playCmd_lost_at_second_question :
  outputs (trace (playCmd (out := plain_out))
             (session two_quizzes ["4"; "London"]))
  = events_of (out := plain_out) 0
      (Right (mk_quiz 1 "2+2" "4") "4"
         (Lost (mk_quiz 2 "capital of France" "Paris") "London")).
Proof. reflexivity. Qed.

(** On every table that is not empty, whatever the user types, play
    signals ready right after its first question. *)
Lemma playCmd_signals_ready_while_asking {out : Out} (w : world) :
  rows w <> [] ->
  exists quiz t,
    In quiz (rows w) /\ trace playCmd w = ask quiz :: Prompt :: t.
Proof.
  intros Hne. rewrite trace_playCmd.
  destruct (rows w) as [|r rs] eqn:Hrows; [congruence|].
  destruct (selection_defined (r :: rs) (seq 0 (List.length (r :: rs)))
              (random w 0)) as (k & quiz & Hk & Hq);
    [discriminate | apply pool_ok_seq |].
  exists quiz.
  change (seq 0 (List.length (r :: rs))) with (0 :: seq 1 (List.length rs)) in *.
  rewrite round_cons. cbv zeta.
  rewrite Hk. cbn [option_map]. rewrite Hq.
  change (input (next_random w)) with (input w).
  destruct (input w) as [|l ls].
  - exists []. split; [eapply nth_error_In, Hq | reflexivity].
  - destruct (matches (Js.trim l) quiz).
    + destruct (round _ _ _ _) as [[t w2] o]. eexists.
      split; [eapply nth_error_In, Hq | reflexivity].
    + eexists. split; [eapply nth_error_In, Hq | reflexivity].
Qed.

(** C5 fails on the code.  [playCmd] does not return the promise of
    [playOne], so its chain runs to its last [rl.prompt()] while the first
    question still waits for its answer: on a table of one quiz, the ready
    signal follows the question at once, before the line of the user is
    read, and is given a second time when the round ends. *)
Theorem playCmd_signals_ready_before_the_answer :
  trace (playCmd (out := plain_out)) (session [mk_quiz 1 "2+2" "4"] ["4"])
  = Question "2+2? " :: Prompt :: Line "4"
    :: Log " CORRECTO - Lleva 1 aciertos." None
    :: won_events 1.
Proof. reflexivity. Qed.

(** * Further properties of the handlers *)

(** ** List *)

Lemma run_forEach_log {out : Out} (l : list quiz) (line : quiz -> string)
    (h : error -> proc unit) (k : unit -> proc unit) (w : world) :
  run (forEach l (fun quiz => log (line quiz) None) >>! h >>= k) false w
  = let '(t, w', o) := run (k tt) false w in
    ((map (fun quiz => Log (line quiz) None) l ++ t)%list, w', o).
Proof.
  unfold catch_.
  induction l as [|quiz l IH]; cbn [forEach map app].
  - cbn [then_ catch_when run].
    now destruct (run (k tt) false w) as [[t w'] o].
  - cbn [log then_ catch_when run]. rewrite IH.
    now destruct (run (k tt) false w) as [[t w'] o].
Qed.

Lemma listCmd_exec {out : Out} (w : world) :
  exec listCmd w = ((map list_line (rows w) ++ [Prompt])%list, w, Fulfilled tt).
Proof.
  unfold exec, listCmd, findAll. cbn [then_ catch_ catch_when run].
  exact (run_forEach_log (rows w)
           (fun quiz => " [" ++ colorize (Js.show (id quiz)) "magenta"
                        ++ "]: " ++ question quiz)
           (fun error => errorlog (message error)) (fun _ => rl_prompt) w).
Qed.

(** X1. [listCmd] writes one line for each row of the table, in the order
    of the table, with the id and the question of the row, then signals
    ready once; it reads no line and leaves the table as it was. *)
Theorem listCmd_lists_every_row {out : Out} (w : world) :
  exec listCmd w = ((map list_line (rows w) ++ [Prompt])%list, w, Fulfilled tt).
Proof. exact (listCmd_exec w). Qed.

(** ** Arguments that the validator rejects *)

(** X2. With no argument, show, test, edit and delete report that the
    parameter is missing; with an argument in which [parseInt] finds no
    number they report that it is not valid.  In both cases nothing else
    is written but the ready signal, no question is asked and the world is
    left as it was. *)
Theorem rejected_argument_is_reported
    {out : Out} {model : Model} (w : world) :
  (let report := ([ErrorLog missing_id; Prompt], w, Fulfilled tt) in
   exec (showCmd None) w = report /\ exec (testCmd None) w = report
   /\ exec (editCmd None) w = report /\ exec (deleteCmd None) w = report)
  /\ (forall arg, Js.parseInt arg = None ->
      let report := ([ErrorLog invalid_id; Prompt], w, Fulfilled tt) in
      exec (showCmd (Some arg)) w = report
      /\ exec (testCmd (Some arg)) w = report
      /\ exec (editCmd (Some arg)) w = report
      /\ exec (deleteCmd (Some arg)) w = report).
Proof.
  split; [repeat split|].
  intros arg Hnan report.
  unfold showCmd, testCmd, editCmd, deleteCmd, validateId. rewrite Hnan.
  repeat split.
Qed.

Lemma rejected_argument_is_reported_witness :
  exec (editCmd (out := plain_out) (model := not_empty_model) (Some "one"))
    (session two_quizzes ["x"])
  = ([ErrorLog invalid_id; Prompt], session two_quizzes ["x"], Fulfilled tt).
Proof.
  destruct (rejected_argument_is_reported (out := plain_out)
              (model := not_empty_model) (session two_quizzes ["x"]))
    as [_ H].
  exact (proj1 (proj2 (proj2 (H "one" eq_refl)))).
Defined.

(** ** Show *)

(** X3. Whatever its argument, [showCmd] writes exactly one line, the
    line of the quiz found or an error line, and then the ready signal; it
    asks nothing and leaves the world, table and pending input, as it
    was. *)
Theorem showCmd_only_reads {out : Out} (w : world) (arg : option string) :
  exists line,
    exec (showCmd arg) w = ([line; Prompt], w, Fulfilled tt)
    /\ ((exists quiz, In quiz (rows w) /\ line = show_line quiz)
        \/ exists m, line = ErrorLog m).
Proof.
  unfold showCmd, validateId.
  destruct arg as [arg|]; [|eexists; split; [reflexivity | right; eauto]].
  destruct (Js.parseInt arg) as [i|] eqn:Hparse;
    [|eexists; split; [reflexivity | right; eauto]].
  unfold exec. cbn.
  destruct (find (has_id i) (rows w)) as [quiz|] eqn:Hfind; cbn.
  - eexists. split; [reflexivity|]. left. exists quiz.
    split; [|reflexivity]. now apply find_some in Hfind.
  - eexists. split; [reflexivity | right; eauto].
Qed.

(** ** Delete *)

Lemma find_filter_other i j rows :
  j <> i ->
  find (has_id j) (filter (fun r => negb (has_id i r)) rows)
  = find (has_id j) rows.
Proof.
  intros Hne. induction rows as [|r rows IH]; [reflexivity|].
  cbn [filter find]. destruct (has_id i r) eqn:Ei; cbn [negb find].
  - assert (Ej : has_id j r = false).
    { unfold has_id in *. apply Z.eqb_eq in Ei. apply Z.eqb_neq. lia. }
    now rewrite Ej.
  - destruct (has_id j r); [reflexivity | exact IH].
Qed.

Lemma find_filter_same i rows :
  find (has_id i) (filter (fun r => negb (has_id i r)) rows) = None.
Proof.
  induction rows as [|r rows IH]; [reflexivity|].
  cbn [filter]. destruct (has_id i r) eqn:Ei; cbn [negb find];
    [exact IH | now rewrite Ei].
Qed.

Lemma deleteCmd_exec (w : world) (arg : string) (i : Z) :
  Js.parseInt arg = Some i ->
  exec (deleteCmd (Some arg)) w
  = ([Prompt], with_rows w (filter (fun r => negb (has_id i r)) (rows w)),
     Fulfilled tt).
Proof.
  intros Hparse. unfold deleteCmd, validateId. rewrite Hparse. reflexivity.
Qed.

(** X4. For an argument that parses to the id [i], where a Number holds
    [i] exactly, [deleteCmd] writes nothing but the ready signal and
    removes exactly the rows of id [i]:
    afterwards no row of that id is found, every other id finds the row it
    found before, a show with the same argument reports that the quiz does
    not exist, and a second delete changes nothing more. *)
Theorem deleteCmd_removes_the_row
    {out : Out} (w : world) (arg : string) (i : Z) :
  Js.parseInt arg = Some i ->
  exact_as_number i ->
  let w' := snd (fst (exec (deleteCmd (Some arg)) w)) in
  trace (deleteCmd (Some arg)) w = [Prompt]
  /\ input w' = input w
  /\ find (has_id i) (rows w') = None
  /\ (forall j, j <> i -> find (has_id j) (rows w') = find (has_id j) (rows w))
  /\ trace (showCmd (Some arg)) w' = [ErrorLog (not_found (Some arg)); Prompt]
  /\ final_rows (deleteCmd (Some arg)) w' = rows w'.
Proof.
  intros Hparse _ w'.
  assert (Hw' : w' = with_rows w (filter (fun r => negb (has_id i r)) (rows w)))
    by (unfold w'; now rewrite deleteCmd_exec with (i := i)).
  unfold trace, final_rows. rewrite !deleteCmd_exec with (i := i) by assumption.
  rewrite Hw'. cbn [fst snd rows input with_rows].
  split; [reflexivity|]. split; [reflexivity|].
  split; [apply find_filter_same|].
  split; [intros j Hj; now apply find_filter_other|].
  split.
  - unfold showCmd, validateId. rewrite Hparse. unfold exec. cbn.
    now rewrite find_filter_same.
  - apply filter_missing_id, find_filter_same.
Qed.

Lemma deleteCmd_removes_the_row_witness :
  let w' := snd (fst (exec (deleteCmd (Some "1")) (session two_quizzes []))) in
  rows w' = [mk_quiz 2 "capital of France" "Paris"]
  /\ trace (showCmd (out := plain_out) (Some "1")) w'
     = [ErrorLog "No existe un quiz asociado al id=1."; Prompt].
Proof.
  assert (Hexact : exact_as_number 1) by (vm_compute; discriminate).
  destruct (deleteCmd_removes_the_row (out := plain_out)
              (session two_quizzes []) "1" 1 eq_refl Hexact)
    as (_ & _ & _ & _ & Hshow & _).
  split; [reflexivity | exact Hshow].
Defined.

(** ** Writes that the store rejects *)

Lemma run_stray_lines {out : Out} (errors : list string) (w : world) :
  run (catch_when (fun _ => true) (forEach errors errorlog_no_socket)
         (fun error => errorlog (message error))
       >>= (fun _ => rl_prompt)) false w
  = ((stray_lines errors ++ [Prompt])%list, w, Fulfilled tt).
Proof.
  induction errors as [|m errors IH]; [reflexivity|].
  cbn [forEach stray_lines]. unfold errorlog_no_socket at 1.
  destruct (errorlog_stray m); [reflexivity|].
  cbn [then_]. exact IH.
Qed.

Lemma stray_lines_short {out : Out} (errors : list string) :
  List.length (stray_lines errors) <= 1.
Proof.
  induction errors as [|m errors IH]; cbn [stray_lines]; [simpl; lia|].
  destruct (errorlog_stray m); [simpl; lia | exact IH].
Qed.

(** X5. When the store rejects the write of add, the table is left as it
    was and the session goes on: after the two questions and their lines,
    the header of the error is written, at most one more error line
    follows, and the ready signal ends the trace. *)
Theorem addCmd_rejected_changes_nothing
    {out : Out} {model : Model} (w : world) (first second : string)
    (rest : list string) (m : string) (errors : list string) :
  input w = first :: second :: rest ->
  validate (rows w) None (Js.trim first) (Js.trim second) = Some (m, errors) ->
  exec addCmd w
  = ((Question (colorize " Introduzca una pregunta: " "red") :: Line first
      :: Question (colorize " Introduzca la respuesta " "red") :: Line second
      :: ErrorLog quiz_erroneo :: stray_lines errors ++ [Prompt])%list,
     with_input w rest, Fulfilled tt)
  /\ final_rows addCmd w = rows w
  /\ List.length (stray_lines errors) <= 1.
Proof.
  intros Hin Hvalid.
  assert (E : exec addCmd w
              = ((Question (colorize " Introduzca una pregunta: " "red")
                  :: Line first
                  :: Question (colorize " Introduzca la respuesta " "red")
                  :: Line second
                  :: ErrorLog quiz_erroneo :: stray_lines errors ++ [Prompt])%list,
                 with_input w rest, Fulfilled tt)).
  { unfold addCmd. run_chain. rewrite Hin. run_chain. rewrite Hvalid.
    run_chain. now rewrite run_stray_lines. }
  split; [exact E|]. split; [|apply stray_lines_short].
  unfold final_rows. now rewrite E.
Qed.

Lemma addCmd_rejected_changes_nothing_witness :
  final_rows (addCmd (out := plain_out) (model := not_empty_model))
    (session two_quizzes ["  "; "x"]) = two_quizzes.
Proof.
  exact (proj1 (proj2 (addCmd_rejected_changes_nothing (out := plain_out)
                         (model := not_empty_model)
                         (session two_quizzes ["  "; "x"]) "  " "x" []
                         "Validation error" ["question empty"]
                         eq_refl eq_refl))).
Defined.

(** X6. When the store rejects the write of edit, the table is left as it
    was, the row found included, and the session goes on in the same way:
    header, at most one more error line, ready signal. *)
Theorem editCmd_rejected_changes_nothing
    {out : Out} {model : Model} (w : world) (arg : string) (i : Z)
    (old : quiz) (first second : string) (rest : list string) (m : string)
    (errors : list string) :
  Js.parseInt arg = Some i ->
  find (has_id i) (rows w) = Some old ->
  input w = first :: second :: rest ->
  validate (rows w) (Some i) (Js.trim second) (answer old) = Some (m, errors) ->
  exec (editCmd (Some arg)) w
  = ((Question (colorize " Introduzca la pregunta " "red") :: Line first
      :: Question (colorize " Introduzca la respuesta " "red") :: Line second
      :: ErrorLog quiz_erroneo :: stray_lines errors ++ [Prompt])%list,
     with_input w rest, Fulfilled tt)
  /\ final_rows (editCmd (Some arg)) w = rows w
  /\ List.length (stray_lines errors) <= 1.
Proof.
  intros Hparse Hfind Hin Hvalid.
  pose proof (find_has_id _ _ _ Hfind) as Hid.
  assert (E : exec (editCmd (Some arg)) w
              = ((Question (colorize " Introduzca la pregunta " "red")
                  :: Line first
                  :: Question (colorize " Introduzca la respuesta " "red")
                  :: Line second
                  :: ErrorLog quiz_erroneo :: stray_lines errors ++ [Prompt])%list,
                 with_input w rest, Fulfilled tt)).
  { unfold editCmd, validateId. rewrite Hparse. run_chain. rewrite Hfind.
    run_chain. rewrite Hin. run_chain. cbn [id question answer].
    rewrite Hid, Hvalid. run_chain. now rewrite run_stray_lines. }
  split; [exact E|]. split; [|apply stray_lines_short].
  unfold final_rows. now rewrite E.
Qed.

Lemma editCmd_rejected_changes_nothing_witness :
  final_rows (editCmd (out := plain_out) (model := not_empty_model) (Some "2"))
    (session two_quizzes ["capital of Spain"; " "]) = two_quizzes.
Proof.
  exact (proj1 (proj2 (editCmd_rejected_changes_nothing (out := plain_out)
                         (model := not_empty_model)
                         (session two_quizzes ["capital of Spain"; " "])
                         "2" 2 (mk_quiz 2 "capital of France" "Paris")
                         "capital of Spain" " " []
                         "Validation error" ["question empty"]
                         eq_refl eq_refl eq_refl eq_refl))).
Defined.

(** ** Edit touches one row *)

Lemma editCmd_exec_accepted
    {out : Out} {model : Model} (w : world) (arg : string) (i : Z)
    (old : quiz) (first second : string) (rest : list string) :
  Js.parseInt arg = Some i ->
  find (has_id i) (rows w) = Some old ->
  input w = first :: second :: rest ->
  validate (rows w) (Some i) (Js.trim second) (answer old) = None ->
  let saved := mk_quiz i (Js.trim second) (answer old) in
  exec (editCmd (Some arg)) w
  = ([Question (colorize " Introduzca la pregunta " "red"); Line first;
      Question (colorize " Introduzca la respuesta " "red"); Line second;
      Log (" Se ha cambiado el quiz " ++ colorize (Js.show i) "magenta"
           ++ " por:  " ++ Js.trim second ++ " " ++ colorize "=>" "magenta"
           ++ " " ++ answer old) None;
      Prompt],
     with_rows (with_input w rest)
       (map (fun r => if has_id i r then saved else r) (rows w)),
     Fulfilled tt).
Proof.
  intros Hparse Hfind Hin Hvalid saved.
  pose proof (find_has_id _ _ _ Hfind) as Hid.
  unfold editCmd, validateId. rewrite Hparse. run_chain. rewrite Hfind.
  run_chain. rewrite Hin. run_chain. cbn [id question answer].
  rewrite Hid, Hvalid. reflexivity.
Qed.

Lemma map_replace_ids i saved rows :
  id saved = i ->
  map id (map (fun r => if has_id i r then saved else r) rows) = map id rows.
Proof.
  intros Hs. induction rows as [|r rows IH]; [reflexivity|].
  cbn [map]. rewrite IH. f_equal.
  destruct (has_id i r) eqn:E; [|reflexivity].
  apply Z.eqb_eq in E. congruence.
Qed.

Lemma find_replace_other i j saved rows :
  id saved = i -> j <> i ->
  find (has_id j) (map (fun r => if has_id i r then saved else r) rows)
  = find (has_id j) rows.
Proof.
  intros Hs Hne. induction rows as [|r rows IH]; [reflexivity|].
  cbn [map find]. destruct (has_id i r) eqn:Ei.
  - assert (Ej : has_id j r = false)
      by (unfold has_id in *; apply Z.eqb_eq in Ei; apply Z.eqb_neq; lia).
    assert (Es : has_id j saved = false)
      by (unfold has_id; apply Z.eqb_neq; lia).
    now rewrite Ej, Es.
  - destruct (has_id j r); [reflexivity | exact IH].
Qed.

(** X7. An edit that the store accepts keeps the ids of the table, in
    number and in order, and changes no row of another id: every other id
    finds the row it found before.  The row edited keeps its id and its
    answer. *)
Theorem editCmd_touches_one_row
    {out : Out} {model : Model} (w : world) (arg : string) (i : Z)
    (old : quiz) (first second : string) (rest : list string) :
  Js.parseInt arg = Some i ->
  find (has_id i) (rows w) = Some old ->
  input w = first :: second :: rest ->
  validate (rows w) (Some i) (Js.trim second) (answer old) = None ->
  let after := final_rows (editCmd (Some arg)) w in
  map id after = map id (rows w)
  /\ (forall j, j <> i -> find (has_id j) after = find (has_id j) (rows w))
  /\ (forall r, find (has_id i) after = Some r ->
        id r = id old /\ answer r = answer old).
Proof.
  intros Hparse Hfind Hin Hvalid after.
  assert (E : after = map (fun r => if has_id i r
                                    then mk_quiz i (Js.trim second) (answer old)
                                    else r) (rows w)).
  { unfold after, final_rows.
    now rewrite (editCmd_exec_accepted w arg i old first second rest). }
  rewrite E. split; [now apply map_replace_ids|].
  split; [intros j Hj; now apply find_replace_other|].
  intros r Hr. pose proof (find_has_id _ _ _ Hfind) as Hid.
  apply find_some in Hr as [Hr Hi]. apply in_map_iff in Hr as (r0 & Hr0 & Hin0).
  destruct (has_id i r0) eqn:E0.
  - subst r. cbn [id answer]. now rewrite Hid.
  - subst r0. congruence.
Qed.

Lemma editCmd_touches_one_row_witness :
  map id (final_rows (editCmd (out := plain_out) (model := not_empty_model)
                        (Some "1"))
            (session two_quizzes ["two plus two"; "four"]))
  = [1; 2]%Z.
Proof.
  exact (proj1 (editCmd_touches_one_row (out := plain_out)
                  (model := not_empty_model)
                  (session two_quizzes ["two plus two"; "four"]) "1" 1
                  (mk_quiz 1 "2+2" "4") "two plus two" "four" []
                  eq_refl eq_refl eq_refl eq_refl)).
Defined.

(** ** Questions that wait for their answer *)

(** X8. The interactive handlers do nothing ahead of the answers.  With no
    line typed, add has asked its first question only; with one line typed
    it has asked the second and written no row; edit on an existing quiz
    behaves the same; test on an existing quiz has asked its question and
    given no verdict.  In each case the handler is waiting, no ready signal
    was given and the table is as it was. *)
Theorem interactive_handlers_wait
    {out : Out} {model : Model} (w : world) :
  (input w = [] ->
   exec addCmd w
   = ([Question (colorize " Introduzca una pregunta: " "red")], w, Waiting))
  /\ (forall first, input w = [first] ->
      exec addCmd w
      = ([Question (colorize " Introduzca una pregunta: " "red"); Line first;
          Question (colorize " Introduzca la respuesta " "red")],
         with_input w [], Waiting))
  /\ (forall arg i old, Js.parseInt arg = Some i ->
      find (has_id i) (rows w) = Some old ->
      (input w = [] ->
       exec (editCmd (Some arg)) w
       = ([Question (colorize " Introduzca la pregunta " "red")], w, Waiting))
      /\ (forall first, input w = [first] ->
          exec (editCmd (Some arg)) w
          = ([Question (colorize " Introduzca la pregunta " "red"); Line first;
              Question (colorize " Introduzca la respuesta " "red")],
             with_input w [], Waiting))
      /\ (input w = [] ->
          exec (testCmd (Some arg)) w = ([ask old], w, Waiting))).
Proof.
  split; [|split].
  - intros Hin. unfold addCmd. run_chain. now rewrite Hin.
  - intros first Hin. unfold addCmd. run_chain. rewrite Hin. reflexivity.
  - intros arg i old Hparse Hfind. split; [|split].
    + intros Hin. unfold editCmd, validateId. rewrite Hparse. run_chain.
      rewrite Hfind. run_chain. now rewrite Hin.
    + intros first Hin. unfold editCmd, validateId. rewrite Hparse. run_chain.
      rewrite Hfind. run_chain. rewrite Hin. reflexivity.
    + intros Hin. unfold testCmd, validateId. rewrite Hparse. run_chain.
      rewrite Hfind. run_chain. now rewrite Hin.
Qed.

Lemma interactive_handlers_wait_witness :
  exec (addCmd (out := plain_out) (model := not_empty_model))
    (session two_quizzes ["largest planet"])
  = ([Question " Introduzca una pregunta: "; Line "largest planet";
      Question " Introduzca la respuesta "],
     session two_quizzes [], Waiting)
  /\ exec (testCmd (out := plain_out) (Some "2")) (session two_quizzes [])
     = ([Question "capital of France? "], session two_quizzes [], Waiting).
Proof.
  destruct (interactive_handlers_wait (out := plain_out)
              (model := not_empty_model)
              (session two_quizzes ["largest planet"])) as (_ & Hadd & _).
  destruct (interactive_handlers_wait (out := plain_out)
              (model := not_empty_model) (session two_quizzes []))
    as (_ & _ & Hrest).
  split; [exact (Hadd "largest planet" eq_refl)|].
  exact (proj2 (proj2 (Hrest "2" 2%Z (mk_quiz 2 "capital of France" "Paris")
                         eq_refl eq_refl)) eq_refl).
Defined.

(** ** Add, then test and list *)

Lemma addCmd_exec_accepted
    {out : Out} {model : Model} (w : world) (first second : string)
    (rest : list string) :
  input w = first :: second :: rest ->
  validate (rows w) None (Js.trim first) (Js.trim second) = None ->
  snd (fst (exec addCmd w))
  = with_rows (with_input w rest)
      (rows w ++ [mk_quiz (fresh_id (rows w)) (Js.trim first) (Js.trim second)])%list.
Proof.
  intros Hin Hvalid. unfold addCmd. run_chain. rewrite Hin. run_chain.
  rewrite Hvalid. reflexivity.
Qed.

Lemma testCmd_exec {out : Out} (w : world) (arg : string) (i : Z)
    (quiz : quiz) (line : string) (rest : list string) :
  Js.parseInt arg = Some i ->
  find (has_id i) (rows w) = Some quiz ->
  input w = line :: rest ->
  exec (testCmd (Some arg)) w
  = ((ask quiz :: Line line
      :: verdict (matches (Js.trim line) quiz) ++ [Prompt; Prompt])%list,
     with_input w rest, Fulfilled tt).
Proof.
  intros Hparse Hfind Hin. unfold testCmd, validateId. rewrite Hparse.
  run_chain. rewrite Hfind. run_chain. rewrite Hin. run_chain.
  destruct (matches (Js.trim line) quiz); reflexivity.
Qed.

(** X9. After an add that the store accepts, a test of the new id judges
    correct every line that agrees with the answer given to add once both
    are trimmed and lower-cased: whatever white space surrounded either
    text and whatever the case of their letters. *)
Theorem addCmd_then_testCmd
    {out : Out} {model : Model} (w : world) (first second : string)
    (rest : list string) (typed : string) (more : list string) :
  input w = first :: second :: rest ->
  validate (rows w) None (Js.trim first) (Js.trim second) = None ->
  Js.toLowerCase (Js.trim typed) = Js.toLowerCase (Js.trim second) ->
  let w' := snd (fst (exec addCmd w)) in
  let created :=
    mk_quiz (fresh_id (rows w)) (Js.trim first) (Js.trim second) in
  trace (testCmd (Some (Js.show (id created)))) (with_input w' (typed :: more))
  = (ask created :: Line typed :: verdict true ++ [Prompt; Prompt])%list.
Proof.
  intros Hin Hvalid Hsame w' created.
  unfold w'. rewrite (addCmd_exec_accepted w first second rest Hin Hvalid).
  unfold trace.
  rewrite (testCmd_exec _ _ (fresh_id (rows w)) created typed more).
  - cbn [fst]. replace (matches (Js.trim typed) created) with true;
      [reflexivity|].
    symmetry. unfold matches, created. cbn [answer].
    rewrite trim_idempotent. now apply String.eqb_eq.
  - apply parseInt_show_exact.
  - apply find_fresh_id.
  - reflexivity.
Qed.

Lemma addCmd_then_testCmd_witness :
  let w := session two_quizzes ["largest planet"; " Jupiter "] in
  let w' := snd (fst (exec (addCmd (out := plain_out)
                              (model := not_empty_model)) w)) in
  trace (testCmd (out := plain_out) (Some "3")) (with_input w' ["  JUPITER"])
  = [Question "largest planet? "; Line "  JUPITER";
     Log "Su respuesta es correcta." None; BigLog "Correcta" "green";
     Prompt; Prompt].
Proof.
  exact (addCmd_then_testCmd (out := plain_out) (model := not_empty_model)
           (session two_quizzes ["largest planet"; " Jupiter "])
           "largest planet" " Jupiter " [] "  JUPITER" []
           eq_refl eq_refl eq_refl).
Defined.

(** X10. After an add that the store accepts, list writes the lines of the
    rows that were there, in their order, then the line of the new quiz,
    with its new id and the question as trimmed, and the ready signal. *)
Theorem addCmd_then_listCmd
    {out : Out} {model : Model} (w : world) (first second : string)
    (rest : list string) :
  input w = first :: second :: rest ->
  validate (rows w) None (Js.trim first) (Js.trim second) = None ->
  let w' := snd (fst (exec addCmd w)) in
  trace listCmd w'
  = (map list_line (rows w)
     ++ [list_line (mk_quiz (fresh_id (rows w)) (Js.trim first)
                      (Js.trim second));
         Prompt])%list.
Proof.
  intros Hin Hvalid w'.
  unfold w', trace.
  rewrite (addCmd_exec_accepted w first second rest Hin Hvalid), listCmd_exec.
  cbn [fst rows with_rows]. rewrite map_app, <- app_assoc. reflexivity.
Qed.

Lemma addCmd_then_listCmd_witness :
  let w := session two_quizzes [" largest planet"; "Jupiter"] in
  let w' := snd (fst (exec (addCmd (out := plain_out)
                              (model := not_empty_model)) w)) in
  trace (listCmd (out := plain_out)) w'
  = [Log " [1]: 2+2" None; Log " [2]: capital of France" None;
     Log " [3]: largest planet" None; Prompt].
Proof.
  exact (addCmd_then_listCmd (out := plain_out) (model := not_empty_model)
           (session two_quizzes [" largest planet"; "Jupiter"])
           " largest planet" "Jupiter" [] eq_refl eq_refl).
Defined.

(** ** More on the play round *)

Section MoreOnRounds.

Context {out : Out}.

Lemma lines_read_early_prompt t : lines_read (early_prompt t) = lines_read t.
Proof.
  unfold early_prompt, lines_read. destruct t as [|[] t]; try reflexivity;
    cbn [flat_map app]; rewrite ?flat_map_app; cbn [flat_map];
    now rewrite ?List.app_nil_r.
Qed.

Lemma ready_signals_early_prompt t :
  ready_signals (early_prompt t) = S (ready_signals t).
Proof.
  unfold early_prompt, ready_signals. destruct t as [|[] t]; try reflexivity;
    cbn [filter app List.length]; rewrite ?filter_app, ?length_app;
    cbn [filter List.length]; lia.
Qed.

Lemma world_playCmd w :
  snd (fst (exec playCmd w))
  = snd (fst (round (rows w) (seq 0 (List.length (rows w))) 0 w)).
Proof.
  rewrite playCmd_round. now destruct (round _ _ _ _) as [[t w'] o].
Qed.

Lemma round_reads_in_order preg pool score w :
  pool_ok preg pool ->
  let '(t, w', _) := round preg pool score w in
  input w = (lines_read t ++ input w')%list
  /\ rows w' = rows w
  /\ List.length (lines_read t) <= List.length (asked t).
Proof.
  revert pool score w.
  apply (round_ind preg (fun _ _ w res =>
           let '(t, w', _) := res in
           input w = (lines_read t ++ input w')%list
           /\ rows w' = rows w
           /\ List.length (lines_read t) <= List.length (asked t))).
  - intros score w. repeat split. simpl. lia.
  - intros pool score w k quiz _ _ _ Hin. repeat split. simpl. lia.
  - intros pool score w k quiz l ls _ _ _ Hin _. rewrite Hin.
    repeat split. simpl. lia.
  - intros pool score w k quiz l ls t w2 o _ _ _ Hin _ pool' (IH & Hrows & Hlen).
    cbn [input rows with_input next_random] in IH, Hrows.
    rewrite Hin. split; [|split].
    + unfold lines_read, ask, correcto. cbn [flat_map app].
      fold (lines_read t). now rewrite <- IH.
    + exact Hrows.
    + unfold lines_read, asked, ask, correcto.
      cbn [flat_map app List.length]. fold (lines_read t) (asked t). lia.
Qed.

Lemma round_ready_signals preg pool score w :
  pool_ok preg pool ->
  let '(t, _, o) := round preg pool score w in
  match o with
  | Fulfilled _ => ready_signals t = 1
  | Waiting => ready_signals t = 0
  | _ => False
  end.
Proof.
  revert pool score w.
  apply (round_ind preg (fun _ _ _ res =>
           let '(t, _, o) := res in
           match o with
           | Fulfilled _ => ready_signals t = 1
           | Waiting => ready_signals t = 0
           | _ => False
           end)); try reflexivity.
  intros pool score w k quiz l ls t w2 o _ _ _ _ _ pool' IH. exact IH.
Qed.

Lemma round_won preg pool score w :
  pool_ok preg pool ->
  let t := fst (fst (round preg pool score w)) in
  In nothing_left t ->
  List.length (asked t) = List.length pool
  /\ In (BigLog (Js.show (Z.of_nat (score + List.length pool))) "magenta") t.
Proof.
  revert pool score w.
  apply (round_ind preg (fun pool score _ res =>
           let t := fst (fst res) in
           In nothing_left t ->
           List.length (asked t) = List.length pool
           /\ In (BigLog (Js.show (Z.of_nat (score + List.length pool)))
                    "magenta") t)); cbn [fst snd]; cbv zeta.
  - intros score w _. split; [reflexivity|].
    cbn [List.length]. rewrite Nat.add_0_r. right. right. now left.
  - intros pool score w k quiz _ _ _ _ [H | []]. discriminate.
  - intros pool score w k quiz l ls _ _ _ _ _
      [H | [H | [H | [H | [H | [H | []]]]]]]; discriminate.
  - intros pool score w k quiz l ls t w2 o Hok Hk _ _ _ IH
      [H | [H | [H | H]]]; try discriminate.
    destruct (splice1_selected preg _ _ k Hok Hk) as (_ & _ & Hlen).
    destruct (IH H) as (Hasked & Hbig). split.
    + unfold asked, ask, correcto. cbn [flat_map app List.length].
      fold (asked t). lia.
    + right. right. right.
      replace (score + List.length pool)
        with (score + 1 + List.length
                (Js.splice1 (Js.floor_mul (random w 0) (List.length pool)) pool))
        by lia.
      exact Hbig.
Qed.

End MoreOnRounds.

(** X11. Play never writes to the table, and it reads the typed lines in
    their order without dropping any: the input is the lines handed to the
    question callbacks followed by what is left unread, and no line is
    read that does not answer a question asked. *)
Theorem playCmd_reads_in_order {out : Out} (w : world) :
  let t := trace playCmd w in
  let w' := snd (fst (exec playCmd w)) in
  rows w' = rows w
  /\ input w = (lines_read t ++ input w')%list
  /\ List.length (lines_read t) <= List.length (asked t).
Proof.
  intros t w'. unfold t, w'.
  rewrite trace_playCmd, world_playCmd, lines_read_early_prompt,
    asked_early_prompt.
  pose proof (round_reads_in_order (rows w) (seq 0 (List.length (rows w))) 0 w
                (pool_ok_seq (rows w))) as H.
  destruct (round _ _ _ _) as [[t0 w0] o]. cbn [fst snd].
  destruct H as (Hin & Hrows & Hlen). auto.
Qed.

(** X12. A play whose round comes to its end gives the ready signal
    exactly twice, once right after the first question (or after the
    end-of-game lines when the table is empty) and once more at the end;
    a play still waiting for a line has given it exactly once. *)
Theorem playCmd_ready_signals {out : Out} (w : world) :
  match result playCmd w with
  | Fulfilled _ => ready_signals (trace playCmd w) = 2
  | Waiting => ready_signals (trace playCmd w) = 1
  | _ => False
  end.
Proof.
  rewrite trace_playCmd, result_playCmd, ready_signals_early_prompt.
  pose proof (round_ready_signals (rows w) (seq 0 (List.length (rows w))) 0 w
                (pool_ok_seq (rows w))) as H.
  destruct (round _ _ _ _) as [[t0 w0] o]. cbn [fst snd].
  destruct o; try assumption; now rewrite H.
Qed.

(** X13. A play that announces that nothing is left to ask has asked every
    quiz of the table exactly once, in some order, and ends with the score
    [N], the number of quizzes, on its banner. *)
Theorem playCmd_won_asked_all {out : Out} (w : world) :
  let preg := rows w in
  let t := trace playCmd w in
  In nothing_left t ->
  (exists idxs,
      Permutation idxs (seq 0 (List.length preg))
      /\ Forall2 (asks_position preg) idxs (asked t))
  /\ In (BigLog (Js.show (Z.of_nat (List.length preg))) "magenta") t.
Proof.
  intros preg t Hwon. unfold t in *. rewrite trace_playCmd in *. fold preg in Hwon |- *.
  apply in_early_prompt in Hwon as [Hwon | Hwon]; [discriminate|].
  destruct (round_won preg (seq 0 (List.length preg)) 0 w (pool_ok_seq preg) Hwon)
    as (Hlen & Hbig).
  destruct (round_asks_distinct preg (seq 0 (List.length preg)) 0 w
              (pool_ok_seq preg)) as (idxs & Hnd & Hincl & Hasked & _).
  rewrite asked_early_prompt. split.
  - exists idxs. split; [|exact Hasked].
    apply NoDup_Permutation_bis; [exact Hnd | | exact Hincl].
    rewrite (Forall2_length Hasked), Hlen. lia.
  - apply in_early_prompt_of. rewrite length_seq in Hbig. exact Hbig.
Qed.

Lemma playCmd_won_asked_all_witness :
  In (BigLog "2" "magenta")
    (trace (playCmd (out := plain_out)) (session two_quizzes ["4"; " PARIS"])).
Proof.
  apply (playCmd_won_asked_all (out := plain_out)
           (session two_quizzes ["4"; " PARIS"])).
  right. right. right. right. right. right. right. now left.
Defined.

(** ** The comparison of answers *)

Lemma trimStart_all_spaces ws :
  all_spaces ws = true -> Js.trimStart ws = "".
Proof.
  unfold all_spaces. induction ws as [|c ws IH]; cbn; [reflexivity|].
  intros H. apply andb_prop in H as [-> H]. auto.
Qed.

Lemma trimEnd_all_spaces ws :
  all_spaces ws = true -> Js.trimEnd ws = "".
Proof.
  unfold all_spaces. induction ws as [|c ws IH]; cbn; [reflexivity|].
  intros H. apply andb_prop in H as [Hc H]. now rewrite IH, Hc.
Qed.

Lemma trimEnd_trailing_spaces s ws :
  all_spaces ws = true -> Js.trimEnd (s ++ ws) = Js.trimEnd s.
Proof.
  intros H. induction s as [|c s IH]; cbn [String.append Js.trimEnd].
  - now apply trimEnd_all_spaces.
  - now rewrite IH.
Qed.

Lemma trim_surrounding_spaces ws s ws' :
  all_spaces ws = true -> all_spaces ws' = true ->
  Js.trim (ws ++ s ++ ws') = Js.trim s.
Proof.
  intros Hws Hws'. unfold Js.trim.
  replace (Js.trimStart (ws ++ s ++ ws')) with (Js.trimStart (s ++ ws')).
  - induction s as [|c s IH]; cbn [String.append Js.trimStart].
    + now rewrite trimStart_all_spaces.
    + destruct (Js.is_space c); [exact IH|].
      now apply (trimEnd_trailing_spaces (String c s)).
  - unfold all_spaces in Hws.
    induction ws as [|c ws IH]; cbn in *; [reflexivity|].
    apply andb_prop in Hws as [-> Hws]. auto.
Qed.

(** X14. The comparison that test and play make does not see the case of
    the letters of the typed line nor the white space around it: two lines
    that agree once lower-cased get the same verdict on every quiz, also
    when one of them is typed between white space. *)
Theorem verdict_ignores_case_and_spaces
    (quiz : quiz) (line line' ws ws' : string) :
  all_spaces ws = true -> all_spaces ws' = true ->
  Js.toLowerCase line = Js.toLowerCase line' ->
  matches (Js.trim (ws ++ line' ++ ws')) quiz = matches (Js.trim line) quiz.
Proof.
  intros Hws Hws' Hcase. unfold matches.
  rewrite trim_surrounding_spaces by assumption.
  rewrite !trim_idempotent, <- !trim_toLowerCase. now rewrite Hcase.
Qed.

Lemma verdict_ignores_case_and_spaces_witness :
  matches (Js.trim ("  " ++ "PARIS" ++ " ")) (mk_quiz 2 "capital of France" "Paris")
  = matches (Js.trim "paris") (mk_quiz 2 "capital of France" "Paris").
Proof.
  apply (verdict_ignores_case_and_spaces
           (mk_quiz 2 "capital of France" "Paris") "paris" "PARIS" "  " " ");
    reflexivity.
Defined.

(** ** Help, credits and quit *)

(** X15. Help and credits write their lines and give the ready signal
    once; quit closes readline, then ends the socket, and gives no ready
    signal.  None of the three writes an error line, asks a question or
    changes the world. *)
Theorem static_handlers (w : world) :
  (ready_signals (trace helpCmd w) = 1
   /\ ready_signals (trace creditsCmd w) = 1
   /\ trace quitCmd w = [RlClose; SocketEnd])
  /\ (forall p, In p [helpCmd; creditsCmd; quitCmd] ->
      snd (fst (exec p w)) = w /\ result p w = Fulfilled tt
      /\ asked (trace p w) = []
      /\ forall m, ~ In (ErrorLog m) (trace p w)).
Proof.
  split; [repeat split|].
  intros p [<- | [<- | [<- | []]]]; repeat split;
    intros m H; cbn in H;
    repeat (destruct H as [H | H]; [discriminate|]); exact H.
Qed.

Lemma static_handlers_witness :
  snd (fst (exec quitCmd (session two_quizzes ["x"]))) = session two_quizzes ["x"].
Proof.
  apply (proj2 (static_handlers (session two_quizzes ["x"])) quitCmd).
  right. right. now left.
Defined.

(** ** The first ready signal of play *)

Lemma playCmd_signals_ready_while_asking_witness :
  exists quiz t,
    In quiz two_quizzes
    /\ trace (playCmd (out := plain_out)) (session two_quizzes ["London"])
       = ask (out := plain_out) quiz :: Prompt :: t.
Proof.
  apply (playCmd_signals_ready_while_asking (out := plain_out)
           (session two_quizzes ["London"])).
  discriminate.
Defined.
